(** * ellipse.py: conversions between ellipse parameterizations

    A shallow embedding of [ellipse.py] in exact real arithmetic, and the
    properties of its conversions.

    Numbers.  The module computes with numpy [float64] scalars.  They are
    idealised here as real numbers: a value that is known to be finite (an
    input, or a sum, difference or product of finite values) lives in [R];
    a value produced by a division or a square root may leave the reals, and
    lives in [xreal], the reals extended with the two infinities and NaN, whose
    operations follow numpy's (IEEE 754) rules: dividing by zero gives an
    infinity or NaN, the square root of a negative number gives NaN, and
    nothing raises.  Zero is unsigned: a nonzero number divided by zero takes
    the sign of the numerator.

    Library functions ([numpy.sqrt], [numpy.arctan2], [numpy.linalg.inv],
    [numpy.isinf]) are modelled by their mathematical meaning.

    Every theorem about these definitions is a statement in exact real
    arithmetic.  The module [Float64] repeats the functions that need no
    library function besides the square root on binary64 numbers, and
    [Float64Facts] shows inputs on which rounding, cancellation or overflow
    make the program leave what holds over the reals. *)

From Stdlib Require Import Reals Lra Lia List ZArith.
From Stdlib Require Floats.
Import ListNotations.

Local Open Scope R_scope.

(** ** Extended reals *)

Inductive xreal : Type :=
| Fin (r : R)
| PInf
| NInf
| NaN.

Declare Scope xreal_scope.
Delimit Scope xreal_scope with X.
Bind Scope xreal_scope with xreal.

(** The infinity that has the sign of [r], NaN for zero: [inf * r]. *)
Definition inf_signed (r : R) : xreal :=
  if Rlt_dec 0 r then PInf else if Rlt_dec r 0 then NInf else NaN.

Definition xopp (x : xreal) : xreal :=
  match x with
  | Fin r => Fin (- r)
  | PInf => NInf
  | NInf => PInf
  | NaN => NaN
  end.

Definition xadd (x y : xreal) : xreal :=
  match x, y with
  | Fin a, Fin b => Fin (a + b)
  | NaN, _ | _, NaN => NaN
  | PInf, NInf | NInf, PInf => NaN
  | PInf, _ | _, PInf => PInf
  | NInf, _ | _, NInf => NInf
  end.

Definition xsub (x y : xreal) : xreal := xadd x (xopp y).

Definition xmul (x y : xreal) : xreal :=
  match x, y with
  | Fin a, Fin b => Fin (a * b)
  | NaN, _ | _, NaN => NaN
  | PInf, Fin r | Fin r, PInf => inf_signed r
  | NInf, Fin r | Fin r, NInf => inf_signed (- r)
  | PInf, PInf | NInf, NInf => PInf
  | PInf, NInf | NInf, PInf => NInf
  end.

(** numpy's true division of [float64] scalars: a warning, never an
    exception. *)
Definition xdiv (x y : xreal) : xreal :=
  match x, y with
  | Fin a, Fin b => if Req_dec_T b 0 then inf_signed a else Fin (a / b)
  | NaN, _ | _, NaN => NaN
  | Fin _, (PInf | NInf) => Fin 0
  | (PInf | NInf), (PInf | NInf) => NaN
  | PInf, Fin b => if Rlt_dec b 0 then NInf else PInf
  | NInf, Fin b => if Rlt_dec b 0 then PInf else NInf
  end.

(** [numpy.sqrt]. *)
Definition xsqrt (x : xreal) : xreal :=
  match x with
  | Fin r => if Rlt_dec r 0 then NaN else Fin (sqrt r)
  | PInf => PInf
  | NInf | NaN => NaN
  end.

(** [x ** n] for a literal exponent [n]. *)
Fixpoint xpow (x : xreal) (n : nat) : xreal :=
  match n with
  | O => Fin 1
  | S m => xmul x (xpow x m)
  end.

(** [numpy.isinf]. *)
Definition isinf (x : xreal) : bool :=
  match x with
  | PInf | NInf => true
  | _ => false
  end.

Notation "x + y" := (xadd x y) : xreal_scope.
Notation "x - y" := (xsub x y) : xreal_scope.
Notation "x * y" := (xmul x y) : xreal_scope.
Notation "x / y" := (xdiv x y) : xreal_scope.
Notation "- x" := (xopp x) : xreal_scope.
Notation "x ^ n" := (xpow x n) : xreal_scope.

(** [numpy.arctan2 y x] on finite arguments: the angle of the point [(x, y)],
    in (-PI, PI], and 0 at the origin. *)
Definition atan2 (y x : R) : R :=
  if Rlt_dec 0 x then atan (y / x)
  else if Rlt_dec x 0 then
         (if Rlt_dec y 0 then atan (y / x) - PI else atan (y / x) + PI)
  else if Rlt_dec 0 y then PI / 2
  else if Rlt_dec y 0 then - (PI / 2)
  else 0.

(** [numpy.arctan2] with the IEEE 754 special cases. *)
Definition xatan2 (y x : xreal) : xreal :=
  match y, x with
  | Fin b, Fin a => Fin (atan2 b a)
  | NaN, _ | _, NaN => NaN
  | Fin b, PInf => Fin 0
  | Fin b, NInf => if Rlt_dec b 0 then Fin (- PI) else Fin PI
  | PInf, Fin _ => Fin (PI / 2)
  | NInf, Fin _ => Fin (- (PI / 2))
  | PInf, PInf => Fin (PI / 4)
  | NInf, PInf => Fin (- (PI / 4))
  | PInf, NInf => Fin (3 * PI / 4)
  | NInf, NInf => Fin (- (3 * PI / 4))
  end.

(** Angles that differ by a multiple of PI describe the same axis. *)
Definition cong_mod_pi (x y : R) : Prop := exists k : Z, x = y + IZR k * PI.

(** ** Parameter tuples *)

(** [(x0, y0, a, b, theta)] *)
Definition gparams : Type := (R * R * R * R * R)%type.
(** [(A, B, C, D, E, F)] *)
Definition conic : Type := (R * R * R * R * R * R)%type.
(** [(m00, m10, m01, mu20, mu11, mu02)] *)
Definition moments : Type := (R * R * R * R * R * R)%type.

(** The same tuples as the functions that divide or take roots return them. *)
Definition xgparams : Type := (xreal * xreal * xreal * xreal * xreal)%type.
Definition xconic : Type := (xreal * xreal * xreal * xreal * xreal * xreal)%type.
Definition xmoments : Type := (xreal * xreal * xreal * xreal * xreal * xreal)%type.

Definition fin6 (c : R * R * R * R * R * R) : xconic :=
  let '(A, B, C, D, E, F) := c in (Fin A, Fin B, Fin C, Fin D, Fin E, Fin F).

(** ** Conic parameters *)

(** [T = 4*A*C - B*B] of [conic_scale]. *)
Definition conic_T (c : conic) : R :=
  let '(A, B, C, D, E, F) := c in 4 * A * C - B * B.

(** [S = A*E**2 + B**2*F + C*D**2 - B*D*E - 4*A*C*F] of [conic_scale]. *)
Definition conic_S (c : conic) : R :=
  let '(A, B, C, D, E, F) := c in
  A * E ^ 2 + B ^ 2 * F + C * D ^ 2 - B * D * E - 4 * A * C * F.

Definition conic_scale (c : conic) : xreal * xreal :=
  let T := conic_T c in
  if Rlt_dec T 0 then (PInf, PInf)
  else
    let S := conic_S c in
    if Req_dec_T S 0 then (PInf, PInf)
    else
      let k := (Fin (0.25 * T ^ 2) / Fin S)%X in
      let ab := (Fin (2.0 * S) / (Fin T * xsqrt (Fin T)))%X in
      (k, ab).

Definition conic_from_gparams (g : gparams) : conic :=
  let '(x0, y0, a, b, theta) := g in
  let c := cos theta in
  let s := sin theta in
  let A := a ^ 2 * s ^ 2 + b ^ 2 * c ^ 2 in
  let B := 2 * (b ^ 2 - a ^ 2) * s * c in
  let C := a ^ 2 * c ^ 2 + b ^ 2 * s ^ 2 in
  let D := -2 * A * x0 - B * y0 in
  let E := - B * x0 - 2 * C * y0 in
  let F := A * x0 ^ 2 + B * x0 * y0 + C * y0 ^ 2 - a ^ 2 * b ^ 2 in
  (A, B, C, D, E, F).

(** [conic * k]: the array times a scalar. *)
Definition conic_mul (k : R) (c : conic) : conic :=
  let '(A, B, C, D, E, F) := c in (A * k, B * k, C * k, D * k, E * k, F * k).

(** ** The symmetric 2x2 eigensolver *)

(** [eigh_2x2 x y z] returns [(w, V)]: the pair [w] of eigenvalues of
    [[x,y],[y,z]] and the matrix [V], given by its rows, whose columns are
    the eigenvectors. *)
Definition eigh_2x2 (x y z : xreal)
  : (xreal * xreal) * ((xreal * xreal) * (xreal * xreal)) :=
  let q := xsqrt (z ^ 2 - Fin 2 * x * z + Fin 4 * y ^ 2 + x ^ 2)%X in
  let w := (Fin 0.5 * (z + x - q), Fin 0.5 * (z + x + q))%X in
  let V := ((Fin 2 * y, Fin 2 * y), (z - x - q, z - x + q))%X in
  (w, V).

(** ** Geometric parameters *)

Definition gparams_from_conic (conic : conic) : option xgparams :=
  let '(k, ab) := conic_scale conic in
  if isinf ab then None
  else
    let '(A, B, C, D, E, _) := conic in
    let x0 := (Fin (B * E - 2 * C * D) / Fin (4 * A * C - B ^ 2))%X in
    let y0 := (Fin (-2 * A * E + B * D) / Fin (4 * A * C - B ^ 2))%X in
    let '((w0, w1), ((V00, V01), (V10, V11))) :=
      eigh_2x2 (Fin A) (Fin (0.5 * B)) (Fin C) in
    let b := xsqrt (w0 / k) in
    let a := xsqrt (w1 / k) in
    let theta := xatan2 (- V01) V11 in
    Some (x0, y0, a, b, theta).

Definition gparams_from_moments (m : moments) : xgparams :=
  let '(m00, m10, m01, mu20, mu11, mu02) := m in
  let x0 := (Fin m10 / Fin m00)%X in
  let y0 := (Fin m01 / Fin m00)%X in
  let '((w0, w1), ((V00, V01), (V10, V11))) :=
    eigh_2x2 (Fin mu20 / Fin m00) (Fin mu11 / Fin m00) (Fin mu02 / Fin m00) in
  let b := (Fin 2.0 * xsqrt w0)%X in
  let a := (Fin 2.0 * xsqrt w1)%X in
  let theta := xatan2 V00 (- V10) in
  (x0, y0, a, b, theta).

(** ** Conic parameters from moments *)

Definition conic_from_moments (moments : moments) : xconic :=
  let '(m00, m10, m01, mu20, mu11, mu02) := moments in
  let x0 := (Fin m10 / Fin m00)%X in
  let y0 := (Fin m01 / Fin m00)%X in
  let A := (Fin (4 * mu02) / Fin m00)%X in
  let B := (Fin (-8 * mu11) / Fin m00)%X in
  let C := (Fin (4 * mu20) / Fin m00)%X in
  let a2b2 := (Fin 0.25 * (Fin 4 * A * C - B * B))%X in
  let D := (Fin (-2) * A * x0 - B * y0)%X in
  let E := (- B * x0 - Fin 2 * C * y0)%X in
  let F := (A * x0 ^ 2 + B * x0 * y0 + C * y0 ^ 2 - a2b2)%X in
  (A, B, C, D, E, F).

(** ** Shape moments *)

Definition moments_from_gparams (g : gparams) : moments :=
  let '(x0, y0, a, b, theta) := g in
  let c := cos theta in
  let s := sin theta in
  let m00 := a * b * PI in
  let m10 := x0 * m00 in
  let m01 := y0 * m00 in
  let mu20 := (a ^ 2 * c ^ 2 + b ^ 2 * s ^ 2) * m00 * 0.25 in
  let mu11 := - (b ^ 2 - a ^ 2) * s * c * m00 * 0.25 in
  let mu02 := (a ^ 2 * s ^ 2 + b ^ 2 * c ^ 2) * m00 * 0.25 in
  (m00, m10, m01, mu20, mu11, mu02).

Definition moments_from_conic (scaled_conic : conic) : option xmoments :=
  let '(k, ab) := conic_scale scaled_conic in
  if isinf ab then None
  else
    let '(A, B, C, D, E, _) := scaled_conic in
    let A := (Fin A / k)%X in
    let B := (Fin B / k)%X in
    let C := (Fin C / k)%X in
    let D := (Fin D / k)%X in
    let E := (Fin E / k)%X in
    let x0 := ((B * E - Fin 2 * C * D) / (Fin 4 * A * C - B ^ 2))%X in
    let y0 := ((Fin (-2) * A * E + B * D) / (Fin 4 * A * C - B ^ 2))%X in
    let m00 := (Fin PI * ab)%X in
    let m10 := (x0 * m00)%X in
    let m01 := (y0 * m00)%X in
    let mu20 := (Fin 0.25 * C * m00)%X in
    let mu11 := (Fin (-0.125) * B * m00)%X in
    let mu02 := (Fin 0.25 * A * m00)%X in
    Some (m00, m10, m01, mu20, mu11, mu02).

(** ** Moments of a polygon *)

(** The state of the loop of [moments_from_contour]: the six accumulators
    and the previous point. *)
Record contour_acc : Type := mk_acc {
  a00 : R; a10 : R; a01 : R; a20 : R; a11 : R; a02 : R;
  xi_1 : R; yi_1 : R
}.

(** One pass through the loop body, for the point [xy]. *)
Definition contour_step (s : contour_acc) (xy : R * R) : contour_acc :=
  let '(xi, yi) := xy in
  let xi2 := xi * xi in
  let yi2 := yi * yi in
  let dxy := xi_1 s * yi - xi * yi_1 s in
  let xii_1 := xi_1 s + xi in
  let yii_1 := yi_1 s + yi in
  {| a00 := a00 s + dxy;
     a10 := a10 s + dxy * xii_1;
     a01 := a01 s + dxy * yii_1;
     a20 := a20 s + dxy * (xi_1 s * xii_1 + xi2);
     a11 := a11 s + dxy * (xi_1 s * (yii_1 + yi_1 s) + xi * (yii_1 + yi));
     a02 := a02 s + dxy * (yi_1 s * yii_1 + yi2);
     xi_1 := xi;
     yi_1 := yi |}.

(** The accumulators after the loop.  [xypoints[-1]] raises [IndexError] on
    an empty array: [None]. *)
Definition contour_sums (xypoints : list (R * R)) : option contour_acc :=
  match xypoints with
  | [] => None
  | p :: _ =>
      let '(x, y) := last xypoints p in
      Some (fold_left contour_step xypoints (mk_acc 0 0 0 0 0 0 x y))
  end.

Definition moments_from_contour (xypoints : list (R * R)) : option xmoments :=
  match contour_sums xypoints with
  | None => None
  | Some s =>
      let '(db1_2, db1_6, db1_12, db1_24) :=
        if Rlt_dec 0 (a00 s)
        then (0.5,
              0.16666666666666666666666666666667,
              0.083333333333333333333333333333333,
              0.041666666666666666666666666666667)
        else (-0.5,
              -0.16666666666666666666666666666667,
              -0.083333333333333333333333333333333,
              -0.041666666666666666666666666666667) in
      let m00 := a00 s * db1_2 in
      let m10 := a10 s * db1_6 in
      let m01 := a01 s * db1_6 in
      let m20 := a20 s * db1_12 in
      let m11 := a11 s * db1_24 in
      let m02 := a02 s * db1_12 in
      let inv_m00 := (Fin 1 / Fin m00)%X in
      let cx := (Fin m10 * inv_m00)%X in
      let cy := (Fin m01 * inv_m00)%X in
      let mu20 := (Fin m20 - Fin m10 * cx)%X in
      let mu11 := (Fin m11 - Fin m10 * cy)%X in
      let mu02 := (Fin m02 - Fin m01 * cy)%X in
      Some (Fin m00, Fin m10, Fin m01, mu20, mu11, mu02)
  end.

(** What the loop adds to each accumulator for the edge from [p] to [q]. *)
Definition w00 (p q : R * R) : R := fst p * snd q - fst q * snd p.
Definition w10 (p q : R * R) : R := w00 p q * (fst p + fst q).
Definition w01 (p q : R * R) : R := w00 p q * (snd p + snd q).
Definition w20 (p q : R * R) : R :=
  w00 p q * (fst p * (fst p + fst q) + fst q * fst q).
Definition w11 (p q : R * R) : R :=
  w00 p q * (fst p * (snd p + snd q + snd p) + fst q * (snd p + snd q + snd q)).
Definition w02 (p q : R * R) : R :=
  w00 p q * (snd p * (snd p + snd q) + snd q * snd q).

(** The sum of an edge weight along a path of points. *)
Fixpoint psum (w : R * R -> R * R -> R) (l : list (R * R)) : R :=
  match l with
  | p :: (q :: _) as t => w p q + psum w t
  | _ => 0
  end.

(** ** Homographies *)

Definition vec3 : Type := (R * R * R)%type.
(** A 3x3 matrix, by rows. *)
Definition mat3 : Type := (vec3 * vec3 * vec3)%type.

Definition I3 : mat3 := ((1, 0, 0), (0, 1, 0), (0, 0, 1)).

(** [M.T] *)
Definition transpose (M : mat3) : mat3 :=
  let '((a, b, c), (d, e, f), (g, h, i)) := M in
  ((a, d, g), (b, e, h), (c, f, i)).

(** [numpy.dot] of two matrices. *)
Definition mmul (M N : mat3) : mat3 :=
  let '((a, b, c), (d, e, f), (g, h, i)) := M in
  let '((a', b', c'), (d', e', f'), (g', h', i')) := N in
  ((a * a' + b * d' + c * g', a * b' + b * e' + c * h', a * c' + b * f' + c * i'),
   (d * a' + e * d' + f * g', d * b' + e * e' + f * h', d * c' + e * f' + f * i'),
   (g * a' + h * d' + i * g', g * b' + h * e' + i * h', g * c' + h * f' + i * i')).

(** A matrix times a column vector. *)
Definition mapply (M : mat3) (p : vec3) : vec3 :=
  let '((a, b, c), (d, e, f), (g, h, i)) := M in
  let '(x, y, z) := p in
  (a * x + b * y + c * z, d * x + e * y + f * z, g * x + h * y + i * z).

Definition det3 (M : mat3) : R :=
  let '((a, b, c), (d, e, f), (g, h, i)) := M in
  a * (e * i - f * h) - b * (d * i - f * g) + c * (d * h - e * g).

(** [numpy.linalg.inv]: the inverse matrix (here the adjugate over the
    determinant); a singular matrix raises [LinAlgError]: [None]. *)
Definition inv3 (M : mat3) : option mat3 :=
  let '((a, b, c), (d, e, f), (g, h, i)) := M in
  let dt := det3 M in
  if Req_dec_T dt 0 then None
  else Some (((e * i - f * h) / dt, (c * h - b * i) / dt, (b * f - c * e) / dt),
             ((f * g - d * i) / dt, (a * i - c * g) / dt, (c * d - a * f) / dt),
             ((d * h - e * g) / dt, (b * g - a * h) / dt, (a * e - b * d) / dt)).

Definition conic_transform (c : conic) (H : mat3) : option conic :=
  let '(A, B, C, D, E, F) := c in
  let M : mat3 := ((A, 0.5 * B, 0.5 * D),
                   (0.5 * B, C, 0.5 * E),
                   (0.5 * D, 0.5 * E, F)) in
  match inv3 H with
  | None => None
  | Some Hinv =>
      let '((M00, M01, M02), (M10, M11, M12), (M20, M21, M22)) :=
        mmul (transpose Hinv) (mmul M Hinv) in
      let A := M00 in
      let B := M01 * 2 in
      let C := M11 in
      let D := M02 * 2 in
      let E := M12 * 2 in
      let F := M22 in
      Some (A, B, C, D, E, F)
  end.

(** The words of the specification of [conic_transform]: the symmetric
    matrix of a conic, off-diagonal entries halved ... *)
Definition conic_matrix (c : conic) : mat3 :=
  let '(A, B, C, D, E, F) := c in
  ((A, B / 2, D / 2), (B / 2, C, E / 2), (D / 2, E / 2, F)).

(** ... and the six coefficients of a matrix, off-diagonal entries
    doubled. *)
Definition matrix_conic (M : mat3) : conic :=
  let '((M00, M01, M02), (M10, M11, M12), (M20, M21, M22)) := M in
  (M00, 2 * M01, M11, 2 * M02, 2 * M12, M22).

(** The implicit equation [A x^2 + B x y + C y^2 + D x + E y + F] at a
    point of the plane ... *)
Definition conic_eval (c : conic) (x y : R) : R :=
  let '(A, B, C, D, E, F) := c in
  A * x ^ 2 + B * x * y + C * y ^ 2 + D * x + E * y + F.

(** ... and at a point in homogeneous coordinates. *)
Definition conic_form (c : conic) (p : vec3) : R :=
  let '(A, B, C, D, E, F) := c in
  let '(u, v, w) := p in
  A * u ^ 2 + B * u * v + C * v ^ 2 + D * u * w + E * v * w + F * w ^ 2.

Definition invertible (H : mat3) : Prop :=
  exists G : mat3, mmul G H = I3 /\ mmul H G = I3.

(** ** Points of an ellipse and their images *)

(** [gparams_evaluate gparams phi]: the arrays [x] and [y] of the points of
    the ellipse at the angles of the array [phi]. *)
Definition gparams_evaluate (g : gparams) (phi : list R) : list R * list R :=
  let '(x0, y0, a, b, theta) := g in
  let c := cos theta in
  let s := sin theta in
  let x := map (fun p => a * cos p * c - b * sin p * s + x0) phi in
  let y := map (fun p => a * cos p * s + b * sin p * c + y0) phi in
  (x, y).

(** [conic / k]: the array divided by a scalar. *)
Definition conic_div (c : conic) (k : R) : conic :=
  let '(A, B, C, D, E, F) := c in (A / k, B / k, C / k, D / k, E / k, F / k).

(** [_perspective_transform pts H]: each point (x, y) becomes the row
    (x, y, 1), is multiplied by [H.T], and its first two coordinates are
    divided by the third. *)
Definition perspective_transform (pts : list (R * R)) (H : mat3)
  : list (xreal * xreal) :=
  map (fun xy : R * R =>
         let '(x, y) := xy in
         let '(u, v, w) := mapply H (x, y, 1) in
         ((Fin u / Fin w)%X, (Fin v / Fin w)%X))
      pts.

(** [k * H]: a matrix times a scalar. *)
Definition mscale (k : R) (M : mat3) : mat3 :=
  let '((a, b, c), (d, e, f), (g, h, i)) := M in
  ((k * a, k * b, k * c), (k * d, k * e, k * f), (k * g, k * h, k * i)).

(** A value that is a number: neither an infinity nor NaN. *)
Definition is_finite (x : xreal) : bool :=
  match x with
  | Fin _ => true
  | _ => false
  end.

(** ** The same program in binary64

    The functions below repeat, operation for operation and in the order of
    the source, the functions above on IEEE 754 binary64 numbers (the
    kernel's primitive floats), which is what numpy's [float64] scalars are.
    [x ** 2] is the correctly rounded square [x * x].  They serve to show
    where rounding, overflow and underflow make the program leave the
    behaviour that holds in exact real arithmetic. *)
Module Float64.

Import PrimFloat.
Local Open Scope float_scope.
Local Set Warnings "-inexact-float".

(** The real number, infinity or NaN that a binary64 value denotes. *)
Definition to_xreal (x : float) : xreal :=
  match FloatOps.Prim2SF x with
  | SpecFloat.S754_zero _ => Fin 0
  | SpecFloat.S754_infinity false => PInf
  | SpecFloat.S754_infinity true => NInf
  | SpecFloat.S754_nan => NaN
  | SpecFloat.S754_finite s m e =>
      let n := if s then Z.neg m else Z.pos m in
      if (0 <=? e)%Z then Fin (IZR (n * 2 ^ e))
      else Fin (IZR n / IZR (2 ^ (- e)))
  end.

Definition fconic : Type := (float * float * float * float * float * float)%type.
Definition fmoments : Type := (float * float * float * float * float * float)%type.

Definition conic_to_xreal (c : fconic) : xconic :=
  let '(A, B, C, D, E, F) := c in
  (to_xreal A, to_xreal B, to_xreal C, to_xreal D, to_xreal E, to_xreal F).

(** [numpy.isinf]. *)
Definition isinf (x : float) : bool := abs x =? infinity.

(** [numpy.pi]. *)
Definition pi : float := 3.141592653589793.

Definition conic_scale (conic : fconic) : float * float :=
  let '(A, B, C, D, E, F) := conic in
  let T := 4 * A * C - B * B in
  if T <? 0 then (infinity, infinity)
  else
    let S := A * (E * E) + (B * B) * F + C * (D * D) - B * D * E - 4 * A * C * F in
    if S =? 0 then (infinity, infinity)
    else
      let k := 0.25 * (T * T) / S in
      let ab := 2 * S / (T * sqrt T) in
      (k, ab).

Definition moments_from_conic (scaled_conic : fconic) : option fmoments :=
  let '(k, ab) := conic_scale scaled_conic in
  if isinf ab then None
  else
    let '(A, B, C, D, E, _) := scaled_conic in
    let A := A / k in
    let B := B / k in
    let C := C / k in
    let D := D / k in
    let E := E / k in
    let x0 := (B * E - 2 * C * D) / (4 * A * C - B * B) in
    let y0 := (-2 * A * E + B * D) / (4 * A * C - B * B) in
    let m00 := pi * ab in
    let m10 := x0 * m00 in
    let m01 := y0 * m00 in
    let mu20 := 0.25 * C * m00 in
    let mu11 := -0.125 * B * m00 in
    let mu02 := 0.25 * A * m00 in
    Some (m00, m10, m01, mu20, mu11, mu02).

Definition eigh_2x2 (x y z : float)
  : (float * float) * ((float * float) * (float * float)) :=
  let q := sqrt (z * z - 2 * x * z + 4 * (y * y) + x * x) in
  let w := (0.5 * (z + x - q), 0.5 * (z + x + q)) in
  let V := ((2 * y, 2 * y), (z - x - q, z - x + q)) in
  (w, V).

(** The loop state of [moments_from_contour]. *)
Record contour_acc : Type := mk_acc {
  a00 : float; a10 : float; a01 : float; a20 : float; a11 : float; a02 : float;
  xi_1 : float; yi_1 : float
}.

Definition contour_step (s : contour_acc) (xy : float * float) : contour_acc :=
  let '(xi, yi) := xy in
  let xi2 := xi * xi in
  let yi2 := yi * yi in
  let dxy := xi_1 s * yi - xi * yi_1 s in
  let xii_1 := xi_1 s + xi in
  let yii_1 := yi_1 s + yi in
  {| a00 := a00 s + dxy;
     a10 := a10 s + dxy * xii_1;
     a01 := a01 s + dxy * yii_1;
     a20 := a20 s + dxy * (xi_1 s * xii_1 + xi2);
     a11 := a11 s + dxy * (xi_1 s * (yii_1 + yi_1 s) + xi * (yii_1 + yi));
     a02 := a02 s + dxy * (yi_1 s * yii_1 + yi2);
     xi_1 := xi;
     yi_1 := yi |}.

Definition contour_sums (xypoints : list (float * float)) : option contour_acc :=
  match xypoints with
  | [] => None
  | p :: _ =>
      let '(x, y) := last xypoints p in
      Some (fold_left contour_step xypoints (mk_acc 0 0 0 0 0 0 x y))
  end.

Definition moments_from_contour (xypoints : list (float * float))
  : option fmoments :=
  match contour_sums xypoints with
  | None => None
  | Some s =>
      let '(db1_2, db1_6, db1_12, db1_24) :=
        if 0 <? a00 s
        then (0.5,
              0.16666666666666666666666666666667,
              0.083333333333333333333333333333333,
              0.041666666666666666666666666666667)
        else (-0.5,
              -0.16666666666666666666666666666667,
              -0.083333333333333333333333333333333,
              -0.041666666666666666666666666666667) in
      let m00 := a00 s * db1_2 in
      let m10 := a10 s * db1_6 in
      let m01 := a01 s * db1_6 in
      let m20 := a20 s * db1_12 in
      let m11 := a11 s * db1_24 in
      let m02 := a02 s * db1_12 in
      let inv_m00 := 1 / m00 in
      let cx := m10 * inv_m00 in
      let cy := m01 * inv_m00 in
      let mu20 := m20 - m10 * cx in
      let mu11 := m11 - m10 * cy in
      let mu02 := m02 - m01 * cy in
      Some (m00, m10, m01, mu20, mu11, mu02)
  end.

(** The area and the first central moment of a result, NaN for [None]. *)
Definition result_m00 (r : option fmoments) : float :=
  match r with
  | Some (m00, _, _, _, _, _) => m00
  | None => nan
  end.

Definition result_mu20 (r : option fmoments) : float :=
  match r with
  | Some (_, _, _, mu20, _, _) => mu20
  | None => nan
  end.

(** A circle of radius 1 centered at (100000000.5, 0), times 4:
    T = 4 and S = 1 exactly, and every coefficient is a binary64 number. *)
Definition far_circle : fconic :=
  (1, 0, 1, -200000001, 0, 10000000100000000).

(** A hyperbola with large coefficients: T = 2^1202 - 2^1204 < 0. *)
Definition large_hyperbola : fconic :=
  (0x1p600, 0x1p602, 0x1p600, 0, 0, -1).

(** A quadrilateral of area 1 near (2^26, 2^26), wound counter-clockwise. *)
Definition far_quadrilateral : list (float * float) :=
  [(67108864.5, 67108864.75); (67108865.25, 67108864.5);
   (67108866, 67108865.75); (67108864.75, 67108865.5)].

End Float64.

(** ** Tactics *)

(** Decimal literals such as [0.25] are rationals; [field] wants them as
    quotients of integers. *)
Ltac unfold_decimals :=
  cbv [Q2R QArith_base.Qnum QArith_base.Qden] in *.

(** Side conditions of [field]: the factors of a nonzero product. *)
Ltac nz := repeat split; first [apply PI_neq0 | assumption | lra].

(** Splits an equation between tuples of [Fin] values into equations
    between reals. *)
Ltac tuple_eq :=
  repeat match goal with
         | |- (_, _) = (_, _) => apply f_equal2
         | |- Fin _ = Fin _ => apply f_equal
         | |- Some _ = Some _ => apply f_equal
         end.

(** Names the nine entries of a matrix. *)
Ltac destruct_mat M :=
  let a := fresh "a" in let b := fresh "b" in let c := fresh "c" in
  let d := fresh "d" in let e := fresh "e" in let f := fresh "f" in
  let g := fresh "g" in let h := fresh "h" in let i := fresh "i" in
  destruct M as [[[[a b] c] [[d e] f]] [[g h] i]].

(** Splits an equation between tuples into equations between reals. *)
Ltac vec_eq :=
  repeat match goal with
         | |- (_, _) = (_, _) => apply f_equal2
         end.

(** Rewrites an accumulator of the reversed polygon, times its constant, as
    the accumulator of the polygon times the opposite constant. *)
Ltac flip_acc f s s' H :=
  repeat match goal with
         | |- context [f s' * ?k] =>
             match goal with
             | |- context [f s * ?k'] =>
                 replace (f s' * k) with (f s * k') by (rewrite H; lra)
             end
         end.

(** ** Arithmetic of finite values *)

Lemma xdiv_fin (a b : R) : b <> 0 -> (Fin a / Fin b)%X = Fin (a / b).
Proof.
  intros Hb. unfold xdiv. destruct (Req_dec_T b 0); [contradiction | reflexivity].
Qed.

Lemma xsqrt_fin (r : R) : 0 <= r -> xsqrt (Fin r) = Fin (sqrt r).
Proof.
  intros Hr. unfold xsqrt. destruct (Rlt_dec r 0); [lra | reflexivity].
Qed.

Lemma sin_cos_sq (t : R) : sin t ^ 2 + cos t ^ 2 = 1.
Proof.
  pose proof (sin2_cos2 t) as H. unfold Rsqr in H. simpl. lra.
Qed.

(** ** The canonical scale of a conic built from geometric parameters *)

Lemma conic_T_from_gparams (x0 y0 a b theta : R) :
  conic_T (conic_from_gparams (x0, y0, a, b, theta)) = 4 * a ^ 2 * b ^ 2.
Proof.
  unfold conic_T, conic_from_gparams.
  pose proof (sin_cos_sq theta) as H.
  set (s := sin theta) in *. set (c := cos theta) in *.
  replace (4 * (a ^ 2 * s ^ 2 + b ^ 2 * c ^ 2) * (a ^ 2 * c ^ 2 + b ^ 2 * s ^ 2) -
           2 * (b ^ 2 - a ^ 2) * s * c * (2 * (b ^ 2 - a ^ 2) * s * c))
    with (4 * a ^ 2 * b ^ 2 * ((s ^ 2 + c ^ 2) * (s ^ 2 + c ^ 2))) by ring.
  rewrite H. ring.
Qed.

Lemma conic_S_from_gparams (x0 y0 a b theta : R) :
  conic_S (conic_from_gparams (x0, y0, a, b, theta)) = 4 * a ^ 4 * b ^ 4.
Proof.
  pose proof (conic_T_from_gparams x0 y0 a b theta) as HT.
  unfold conic_T, conic_S, conic_from_gparams in *.
  set (s := sin theta) in *. set (c := cos theta) in *.
  set (A := a ^ 2 * s ^ 2 + b ^ 2 * c ^ 2) in *.
  set (B := 2 * (b ^ 2 - a ^ 2) * s * c) in *.
  set (C := a ^ 2 * c ^ 2 + b ^ 2 * s ^ 2) in *.
  replace (4 * a ^ 4 * b ^ 4) with ((4 * a ^ 2 * b ^ 2) * (a ^ 2 * b ^ 2)) by ring.
  rewrite <- HT. ring.
Qed.

(** A conic with T = 4 p^2 and S = 4 p^4, p > 0, is in canonical scale, and
    its area over pi is p. *)
Lemma conic_scale_unit (c : conic) (p : R) :
  0 < p -> conic_T c = 4 * p ^ 2 -> conic_S c = 4 * p ^ 4 ->
  conic_scale c = (Fin 1, Fin p).
Proof.
  intros Hp HT HS. unfold conic_scale. rewrite HT, HS.
  assert (HTpos : 0 < 4 * p ^ 2) by (simpl; nra).
  assert (HSnz : 4 * p ^ 4 <> 0).
  { replace (4 * p ^ 4) with (4 * (p ^ 2 * p ^ 2)) by ring.
    assert (0 < p ^ 2) by (simpl; nra). nra. }
  destruct (Rlt_dec (4 * p ^ 2) 0) as [Hneg | _]; [lra |].
  destruct (Req_dec_T (4 * p ^ 4) 0) as [Hz | _]; [contradiction |].
  rewrite xsqrt_fin by lra.
  replace (4 * p ^ 2) with ((2 * p) * (2 * p)) at 3 by ring.
  rewrite sqrt_square by lra.
  cbn [xmul]. rewrite !xdiv_fin by (try assumption; nra).
  unfold_decimals. tuple_eq; field; lra.
Qed.

(** C1. For a > 0 and b > 0 the conic built from the geometric parameters is
    in canonical scale: [conic_scale] returns exactly k = 1 and ab = a*b. *)
Theorem conic_scale_from_gparams (x0 y0 a b theta : R) :
  0 < a -> 0 < b ->
  conic_scale (conic_from_gparams (x0, y0, a, b, theta)) = (Fin 1, Fin (a * b)).
Proof.
  intros Ha Hb.
  assert (Hab : 0 < a * b) by (apply Rmult_lt_0_compat; assumption).
  apply conic_scale_unit; [exact Hab | |].
  - rewrite conic_T_from_gparams. ring.
  - rewrite conic_S_from_gparams. ring.
Qed.

(** The scenario of the module's self-test: (450, 320, 300, 200, -0.25)
    gives (1.0, 60000.0). *)
Lemma conic_scale_from_gparams_scenario :
  0 < 300 /\ 0 < 200 /\
  conic_scale (conic_from_gparams (450, 320, 300, 200, -0.25)) =
  (Fin 1, Fin 60000).
Proof.
  split; [lra |]. split; [lra |].
  rewrite (conic_scale_from_gparams 450 320 300 200 (-0.25)) by lra.
  f_equal. f_equal. lra.
Defined.

(** ** The eigensolver on real matrices *)

(** The discriminant of [eigh_2x2], as the source writes it, is the square
    root of a sum of squares. *)
Lemma eigh_disc_sq (x y z : R) :
  z ^ 2 - 2 * x * z + 4 * y ^ 2 + x ^ 2 = (z - x) ^ 2 + 4 * y ^ 2.
Proof. ring. Qed.

Lemma eigh_disc_nonneg (x y z : R) : 0 <= (z - x) ^ 2 + 4 * y ^ 2.
Proof.
  pose proof (pow2_ge_0 (z - x)). pose proof (pow2_ge_0 y). lra.
Qed.

Lemma eigh_2x2_fin (x y z : R) :
  let q := sqrt ((z - x) ^ 2 + 4 * y ^ 2) in
  eigh_2x2 (Fin x) (Fin y) (Fin z) =
  ((Fin (0.5 * (z + x - q)), Fin (0.5 * (z + x + q))),
   ((Fin (2 * y), Fin (2 * y)), (Fin (z - x - q), Fin (z - x + q)))).
Proof.
  intros q. unfold eigh_2x2. cbn [xpow xmul xadd xsub xopp].
  rewrite xsqrt_fin.
  - replace (z * (z * 1) + - (2 * x * z) + 4 * (y * (y * 1)) + x * (x * 1))
      with ((z - x) ^ 2 + 4 * y ^ 2) by ring.
    fold q. cbn [xpow xmul xadd xsub xopp]. reflexivity.
  - replace (z * (z * 1) + - (2 * x * z) + 4 * (y * (y * 1)) + x * (x * 1))
      with ((z - x) ^ 2 + 4 * y ^ 2) by ring.
    apply eigh_disc_nonneg.
Qed.

(** C6. On real inputs [eigh_2x2] returns the eigenvalues
    w0 = 0.5*(z+x-q) <= w1 = 0.5*(z+x+q), q = sqrt((z-x)^2 + 4y^2), and the
    columns (2y, z-x-q) and (2y, z-x+q), each of which satisfies the
    eigen-equation of [[x,y],[y,z]] for its eigenvalue. *)
Theorem eigh_2x2_correct (x y z : R) :
  let q := sqrt ((z - x) ^ 2 + 4 * y ^ 2) in
  let w0 := 0.5 * (z + x - q) in
  let w1 := 0.5 * (z + x + q) in
  let v0 := (2 * y, z - x - q) in
  let v1 := (2 * y, z - x + q) in
  eigh_2x2 (Fin x) (Fin y) (Fin z) =
    ((Fin w0, Fin w1),
     ((Fin (fst v0), Fin (fst v1)), (Fin (snd v0), Fin (snd v1)))) /\
  w0 <= w1 /\
  (x * fst v0 + y * snd v0 = w0 * fst v0 /\
   y * fst v0 + z * snd v0 = w0 * snd v0) /\
  (x * fst v1 + y * snd v1 = w1 * fst v1 /\
   y * fst v1 + z * snd v1 = w1 * snd v1).
Proof.
  intros q w0 w1 v0 v1.
  assert (Hq : 0 <= q) by apply sqrt_pos.
  assert (Hqq : q * q = (z - x) ^ 2 + 4 * y ^ 2)
    by (apply sqrt_sqrt, eigh_disc_nonneg).
  split; [apply eigh_2x2_fin |].
  subst w0 w1 v0 v1. cbn [fst snd].
  split; [lra |].
  repeat split; lra.
Qed.

(** ** Moments and conics of the same ellipse *)

Lemma moments_m00_nonzero (a b : R) : 0 < a -> 0 < b -> a * b * PI <> 0.
Proof.
  intros Ha Hb. pose proof PI_RGT_0.
  assert (0 < a * b) by (apply Rmult_lt_0_compat; assumption).
  assert (0 < a * b * PI) by (apply Rmult_lt_0_compat; lra).
  lra.
Qed.

(** C4. For a > 0 and b > 0, the conic computed from the moments of the
    geometric parameters is, coefficient by coefficient, the conic computed
    from the geometric parameters. *)
Theorem conic_from_moments_from_gparams (x0 y0 a b theta : R) :
  0 < a -> 0 < b ->
  conic_from_moments (moments_from_gparams (x0, y0, a, b, theta)) =
  fin6 (conic_from_gparams (x0, y0, a, b, theta)).
Proof.
  intros Ha Hb.
  pose proof (moments_m00_nonzero a b Ha Hb) as Hm.
  pose proof (conic_T_from_gparams x0 y0 a b theta) as HT.
  unfold conic_T, conic_from_gparams in HT.
  unfold conic_from_moments, moments_from_gparams, conic_from_gparams, fin6.
  rewrite !xdiv_fin by exact Hm.
  set (s := sin theta) in *. set (c := cos theta) in *.
  set (A := a ^ 2 * s ^ 2 + b ^ 2 * c ^ 2) in *.
  set (B := 2 * (b ^ 2 - a ^ 2) * s * c) in *.
  set (C := a ^ 2 * c ^ 2 + b ^ 2 * s ^ 2) in *.
  replace (x0 * (a * b * PI) / (a * b * PI)) with x0 by (field; nz).
  replace (y0 * (a * b * PI) / (a * b * PI)) with y0 by (field; nz).
  replace (4 * (A * (a * b * PI) * 0.25) / (a * b * PI)) with A
    by (unfold_decimals; field; nz).
  replace (4 * (C * (a * b * PI) * 0.25) / (a * b * PI)) with C
    by (unfold_decimals; field; nz).
  replace (-8 * (- (b ^ 2 - a ^ 2) * s * c * (a * b * PI) * 0.25) / (a * b * PI))
    with B by (subst B; unfold_decimals; field; nz).
  cbn [xpow xmul xadd xsub xopp].
  tuple_eq; lra.
Qed.

Lemma conic_from_moments_from_gparams_scenario :
  conic_from_moments (moments_from_gparams (450, 320, 300, 200, -0.25)) =
  fin6 (conic_from_gparams (450, 320, 300, 200, -0.25)).
Proof.
  apply (conic_from_moments_from_gparams 450 320 300 200 (-0.25)); lra.
Defined.

(** ** The sentinel of [conic_scale] *)

Lemma inf_signed_isinf (r : R) : r <> 0 -> isinf (inf_signed r) = true.
Proof.
  intros Hr. unfold inf_signed.
  destruct (Rlt_dec 0 r); [reflexivity |].
  destruct (Rlt_dec r 0); [reflexivity | lra].
Qed.

(** On a parabola (T = 0, S <> 0) neither guard of [conic_scale] fires. *)
Lemma conic_scale_parabola (c : conic) :
  conic_T c = 0 -> conic_S c <> 0 ->
  conic_scale c = (Fin 0, inf_signed (2.0 * conic_S c)).
Proof.
  intros HT HS. unfold conic_scale. rewrite HT.
  destruct (Rlt_dec 0 0) as [H | _]; [lra |].
  destruct (Req_dec_T (conic_S c) 0) as [H | _]; [contradiction |].
  rewrite xsqrt_fin by lra. cbn [xmul].
  unfold xdiv.
  destruct (Req_dec_T (conic_S c) 0) as [H | _]; [contradiction |].
  destruct (Req_dec_T (0 * sqrt 0) 0) as [_ | H]; [| lra].
  do 2 f_equal. unfold_decimals. field. assumption.
Qed.

(** On an ellipse (T > 0, S <> 0) both results are finite. *)
Lemma conic_scale_ellipse (c : conic) :
  0 < conic_T c -> conic_S c <> 0 ->
  conic_scale c =
  (Fin (0.25 * conic_T c ^ 2 / conic_S c),
   Fin (2.0 * conic_S c / (conic_T c * sqrt (conic_T c)))).
Proof.
  intros HT HS. unfold conic_scale.
  destruct (Rlt_dec (conic_T c) 0) as [H | _]; [lra |].
  destruct (Req_dec_T (conic_S c) 0) as [H | _]; [contradiction |].
  rewrite xsqrt_fin by lra. cbn [xmul].
  assert (0 < sqrt (conic_T c)) by (apply sqrt_lt_R0; assumption).
  rewrite !xdiv_fin; [reflexivity | | assumption].
  apply Rgt_not_eq, Rmult_lt_0_compat; assumption.
Qed.

(** [ab] is infinite exactly when T is not positive or S is zero. *)
Lemma conic_scale_isinf (c : conic) :
  isinf (snd (conic_scale c)) = true <-> (~ 0 < conic_T c \/ conic_S c = 0).
Proof.
  destruct (Rlt_dec 0 (conic_T c)) as [HT | HT].
  - destruct (Req_dec_T (conic_S c) 0) as [HS | HS].
    + unfold conic_scale.
      destruct (Rlt_dec (conic_T c) 0); [lra |].
      destruct (Req_dec_T (conic_S c) 0); [| contradiction].
      cbn. tauto.
    + rewrite conic_scale_ellipse by assumption. cbn.
      split; [discriminate | tauto].
  - split; [tauto | intros _].
    destruct (Rlt_dec (conic_T c) 0) as [Hneg | Hnn].
    + unfold conic_scale.
      destruct (Rlt_dec (conic_T c) 0); [reflexivity | contradiction].
    + assert (HT0 : conic_T c = 0) by lra.
      destruct (Req_dec_T (conic_S c) 0) as [HS | HS].
      * unfold conic_scale.
        destruct (Rlt_dec (conic_T c) 0); [reflexivity |].
        destruct (Req_dec_T (conic_S c) 0); [reflexivity | contradiction].
      * rewrite conic_scale_parabola by assumption. cbn [snd].
        apply inf_signed_isinf. lra.
Qed.

Lemma gparams_from_conic_None (c : conic) :
  gparams_from_conic c = None <-> isinf (snd (conic_scale c)) = true.
Proof.
  unfold gparams_from_conic.
  destruct (conic_scale c) as [k ab]. cbn [snd].
  destruct (isinf ab).
  - tauto.
  - destruct c as [[[[[A B] C] D] E] F].
    destruct (eigh_2x2 (Fin A) (Fin (0.5 * B)) (Fin C))
      as [[w0 w1] [[V00 V01] [V10 V11]]].
    split; discriminate.
Qed.

Lemma moments_from_conic_None (c : conic) :
  moments_from_conic c = None <-> isinf (snd (conic_scale c)) = true.
Proof.
  unfold moments_from_conic.
  destruct (conic_scale c) as [k ab]. cbn [snd].
  destruct (isinf ab).
  - tauto.
  - destruct c as [[[[[A B] C] D] E] F].
    split; discriminate.
Qed.

(** C7 (amended). In exact real arithmetic, [gparams_from_conic] and
    [moments_from_conic] return [None] exactly when T = 4AC - B^2 is not
    strictly positive or S is zero, and a parameter tuple otherwise. *)
Theorem conic_sentinel_iff_not_ellipse (c : conic) :
  (gparams_from_conic c = None <-> (~ 0 < conic_T c \/ conic_S c = 0)) /\
  (moments_from_conic c = None <-> (~ 0 < conic_T c \/ conic_S c = 0)) /\
  ((exists g, gparams_from_conic c = Some g) <->
   (0 < conic_T c /\ conic_S c <> 0)) /\
  ((exists m, moments_from_conic c = Some m) <->
   (0 < conic_T c /\ conic_S c <> 0)).
Proof.
  pose proof (conic_scale_isinf c) as Hinf.
  pose proof (gparams_from_conic_None c) as Hg.
  pose proof (moments_from_conic_None c) as Hm.
  assert (Hdec : (~ 0 < conic_T c \/ conic_S c = 0) \/
                 (0 < conic_T c /\ conic_S c <> 0)).
  { destruct (Rlt_dec 0 (conic_T c)); [| tauto].
    destruct (Req_dec_T (conic_S c) 0); tauto. }
  split; [tauto |]. split; [tauto |].
  split.
  - destruct (gparams_from_conic c) as [g |].
    + split; [intros _ | eauto].
      destruct Hdec as [Hne | He]; [| exact He].
      assert (Hs : Some g = None) by tauto. discriminate Hs.
    + split; [intros [g Hs]; discriminate Hs | intros He].
      exfalso. tauto.
  - destruct (moments_from_conic c) as [m |].
    + split; [intros _ | eauto].
      destruct Hdec as [Hne | He]; [| exact He].
      assert (Hs : Some m = None) by tauto. discriminate Hs.
    + split; [intros [m Hs]; discriminate Hs | intros He].
      exfalso. tauto.
Qed.



(** ** Scaling a conic *)

Lemma conic_T_mul (k : R) (c : conic) :
  conic_T (conic_mul k c) = k ^ 2 * conic_T c.
Proof. destruct c as [[[[[A B] C] D] E] F]. cbn. ring. Qed.

Lemma conic_S_mul (k : R) (c : conic) :
  conic_S (conic_mul k c) = k ^ 3 * conic_S c.
Proof. destruct c as [[[[[A B] C] D] E] F]. cbn. ring. Qed.

(** Scaling an ellipse's conic by k <> 0 scales [k0] by k and multiplies
    [ab0] by the sign of k. *)
Lemma conic_scale_mul (k : R) (c : conic) :
  k <> 0 -> 0 < conic_T c -> conic_S c <> 0 ->
  conic_scale (conic_mul k c) =
  (Fin (k * (0.25 * conic_T c ^ 2 / conic_S c)),
   Fin (k / Rabs k * (2.0 * conic_S c / (conic_T c * sqrt (conic_T c))))).
Proof.
  intros Hk HT HS.
  assert (Hk2 : 0 < k ^ 2).
  { pose proof (Rsqr_pos_lt k Hk) as H. unfold Rsqr in H. simpl. lra. }
  assert (Hk3 : k ^ 3 <> 0) by (apply pow_nonzero; assumption).
  assert (Hsq : 0 < sqrt (conic_T c)) by (apply sqrt_lt_R0; assumption).
  assert (Habs : 0 < Rabs k) by (apply Rabs_pos_lt; assumption).
  assert (Hkk : k * k = Rabs k * Rabs k).
  { pose proof (Rsqr_abs k) as H. unfold Rsqr in H. exact H. }
  rewrite conic_scale_ellipse.
  - rewrite conic_T_mul, conic_S_mul.
    replace (k ^ 2) with (Rabs k * Rabs k) by (rewrite <- Hkk; ring).
    rewrite sqrt_mult_alt by nra.
    rewrite sqrt_square by lra.
    tuple_eq; unfold_decimals.
    + replace (Rabs k * Rabs k) with (k * k) by exact Hkk.
      field. split; assumption.
    + replace (k ^ 3) with (k * (Rabs k * Rabs k)) by (rewrite <- Hkk; ring).
      field. repeat split; lra.
  - rewrite conic_T_mul. nra.
  - rewrite conic_S_mul. apply Rmult_integral_contrapositive_currified; assumption.
Qed.

(** For a positive factor the area term is unchanged. *)
Lemma conic_scale_mul_pos (k : R) (c : conic) :
  0 < k -> 0 < conic_T c -> conic_S c <> 0 ->
  conic_scale (conic_mul k c) =
  (Fin (k * (0.25 * conic_T c ^ 2 / conic_S c)),
   Fin (2.0 * conic_S c / (conic_T c * sqrt (conic_T c)))).
Proof.
  intros Hk HT HS. rewrite conic_scale_mul by (try assumption; lra).
  rewrite Rabs_pos_eq by lra.
  tuple_eq; [reflexivity |].
  replace (k / k) with 1 by (field; lra). ring.
Qed.

(** C5. Scaling a conic by a nonzero k should scale k0 by k and leave ab0
    unchanged.  At the unit circle x^2 + y^2 - 1 = 0 and the factor -1 it
    does not: [conic_scale] returns (1, 1) on the conic and (-1, -1) on its
    negation, so ab changes from 1 to -1. *)
Theorem conic_scale_negated_circle :
  conic_scale (1, 0, 1, 0, 0, -1) = (Fin 1, Fin 1) /\
  conic_scale (conic_mul (-1) (1, 0, 1, 0, 0, -1)) = (Fin (-1), Fin (-1)).
Proof.
  assert (HT : conic_T (1, 0, 1, 0, 0, -1) = 4) by (cbn; lra).
  assert (HS : conic_S (1, 0, 1, 0, 0, -1) = 4) by (cbn; lra).
  assert (Hsq : sqrt 4 = 2).
  { replace 4 with (2 * 2) by lra. apply sqrt_square. lra. }
  split.
  - rewrite conic_scale_ellipse by (rewrite ?HT, ?HS; lra).
    rewrite HT, HS, Hsq. tuple_eq; lra.
  - rewrite conic_scale_mul by (rewrite ?HT, ?HS; lra).
    rewrite HT, HS, Hsq.
    replace (Rabs (-1)) with 1 by (rewrite Rabs_left; lra).
    tuple_eq; lra.
Qed.

(** ** Angles recovered by [arctan2] *)

Lemma cong_mod_pi_of_sin (x y : R) : sin (x - y) = 0 -> cong_mod_pi x y.
Proof.
  intros H. destruct (sin_eq_0_0 _ H) as [k Hk].
  exists k. lra.
Qed.

(** The direction (c*c, s*c), c <> 0, scaled by r > 0, has the angle theta
    up to a multiple of PI. *)
Lemma atan2_axis (r theta : R) :
  0 < r -> cos theta <> 0 ->
  cong_mod_pi (atan2 (r * (sin theta * cos theta)) (r * (cos theta * cos theta)))
              theta.
Proof.
  intros Hr Hc.
  assert (Hcc : 0 < cos theta * cos theta).
  { pose proof (Rsqr_pos_lt _ Hc) as H. exact H. }
  assert (Hx : 0 < r * (cos theta * cos theta))
    by (apply Rmult_lt_0_compat; assumption).
  unfold atan2. destruct (Rlt_dec 0 (r * (cos theta * cos theta))) as [_ | H];
    [| contradiction].
  replace (r * (sin theta * cos theta) / (r * (cos theta * cos theta)))
    with (tan theta) by (unfold tan; field; split; [assumption | lra]).
  apply cong_mod_pi_of_sin.
  set (t := atan (tan theta)).
  assert (Hct : 0 < cos t).
  { apply cos_gt_0; pose proof (atan_bound (tan theta)); fold t in H; lra. }
  assert (Htan : tan t = tan theta) by apply tan_atan.
  unfold tan in Htan.
  assert (Hcross : sin t * cos theta = cos t * sin theta).
  { apply (Rmult_eq_reg_r (/ cos t * / cos theta)).
    - transitivity (sin t / cos t); [field; split; lra |].
      rewrite Htan. field. split; lra.
    - apply Rmult_integral_contrapositive_currified;
        apply Rinv_neq_0_compat; lra. }
  rewrite sin_minus. lra.
Qed.

Lemma atan2_origin : atan2 0 0 = 0.
Proof.
  unfold atan2. destruct (Rlt_dec 0 0); [lra | reflexivity].
Qed.

Lemma not_cong_mod_pi_0_quarter : ~ cong_mod_pi 0 (PI / 4).
Proof.
  intros [k Hk].
  assert (H : IZR (1 + 4 * k) * PI = 0).
  { rewrite plus_IZR, mult_IZR. lra. }
  apply Rmult_integral in H. destruct H as [H | H].
  - apply eq_IZR_R0 in H. lia.
  - exact (PI_neq0 H).
Qed.

(** ** Geometric parameters -> conic -> geometric parameters *)

(** The round trip through the conic, with the angle as the code computes
    it. *)
Lemma gparams_from_conic_from_gparams (x0 y0 a b theta : R) :
  0 < b -> b <= a ->
  gparams_from_conic (conic_from_gparams (x0, y0, a, b, theta)) =
  Some (Fin x0, Fin y0, Fin a, Fin b,
        Fin (atan2 (2 * (a ^ 2 - b ^ 2) * (sin theta * cos theta))
                   (2 * (a ^ 2 - b ^ 2) * (cos theta * cos theta)))).
Proof.
  intros Hb Hab.
  assert (Ha : 0 < a) by lra.
  unfold gparams_from_conic.
  rewrite (conic_scale_unit _ (a * b));
    [| apply Rmult_lt_0_compat; assumption
     | rewrite conic_T_from_gparams; ring
     | rewrite conic_S_from_gparams; ring].
  cbn [isinf].
  pose proof (conic_T_from_gparams x0 y0 a b theta) as HT.
  unfold conic_T in HT. unfold conic_from_gparams in *.
  pose proof (sin_cos_sq theta) as Hsc.
  set (s := sin theta) in *. set (c := cos theta) in *.
  set (A := a ^ 2 * s ^ 2 + b ^ 2 * c ^ 2) in *.
  set (B := 2 * (b ^ 2 - a ^ 2) * s * c) in *.
  set (C := a ^ 2 * c ^ 2 + b ^ 2 * s ^ 2) in *.
  assert (HT' : 4 * A * C - B ^ 2 = 4 * a ^ 2 * b ^ 2) by (rewrite <- HT; ring).
  assert (HTpos : 0 < 4 * a ^ 2 * b ^ 2).
  { assert (0 < a * b) by (apply Rmult_lt_0_compat; assumption). simpl. nra. }
  assert (Hd : 0 <= a ^ 2 - b ^ 2) by (simpl; nra).
  assert (Hq : sqrt ((C - A) ^ 2 + 4 * (0.5 * B) ^ 2) = a ^ 2 - b ^ 2).
  { replace ((C - A) ^ 2 + 4 * (0.5 * B) ^ 2)
      with ((a ^ 2 - b ^ 2) ^ 2 * ((s ^ 2 + c ^ 2) * (s ^ 2 + c ^ 2)))
      by (subst A B C; unfold_decimals; field).
    rewrite Hsc, !Rmult_1_r. apply sqrt_pow2. exact Hd. }
  assert (HAC : C + A = a ^ 2 + b ^ 2).
  { replace (C + A) with ((a ^ 2 + b ^ 2) * (s ^ 2 + c ^ 2))
      by (subst A C; ring).
    rewrite Hsc. ring. }
  rewrite eigh_2x2_fin, Hq, HAC, HT'.
  rewrite !xdiv_fin by lra.
  replace (0.5 * (a ^ 2 + b ^ 2 + (a ^ 2 - b ^ 2)) / 1) with (a ^ 2) by lra.
  replace (0.5 * (a ^ 2 + b ^ 2 - (a ^ 2 - b ^ 2)) / 1) with (b ^ 2) by lra.
  rewrite !xsqrt_fin by apply pow2_ge_0.
  rewrite !sqrt_pow2 by lra.
  cbn [xatan2 xopp].
  tuple_eq; try reflexivity.
  - replace (B * (- B * x0 - 2 * C * y0) - 2 * C * (-2 * A * x0 - B * y0))
      with ((4 * A * C - B ^ 2) * x0) by ring.
    rewrite HT'. field. lra.
  - replace (-2 * A * (- B * x0 - 2 * C * y0) + B * (-2 * A * x0 - B * y0))
      with ((4 * A * C - B ^ 2) * y0) by ring.
    rewrite HT'. field. lra.
  - f_equal.
    + subst B. lra.
    + replace (C - A + (a ^ 2 - b ^ 2))
        with (2 * (a ^ 2 - b ^ 2) * (c * c) +
              (a ^ 2 - b ^ 2) * (1 - (s ^ 2 + c ^ 2)))
        by (subst A C; ring).
      rewrite Hsc. ring.
Qed.

(** ** Geometric parameters -> moments -> geometric parameters *)

(** The round trip through the moments, with the angle as the code computes
    it. *)
Lemma gparams_from_moments_from_gparams (x0 y0 a b theta : R) :
  0 < b -> b <= a ->
  gparams_from_moments (moments_from_gparams (x0, y0, a, b, theta)) =
  (Fin x0, Fin y0, Fin a, Fin b,
   Fin (atan2 ((a ^ 2 - b ^ 2) / 2 * (sin theta * cos theta))
              ((a ^ 2 - b ^ 2) / 2 * (cos theta * cos theta)))).
Proof.
  intros Hb Hab.
  assert (Ha : 0 < a) by lra.
  pose proof (moments_m00_nonzero a b Ha Hb) as Hm.
  unfold gparams_from_moments, moments_from_gparams.
  pose proof (sin_cos_sq theta) as Hsc.
  set (s := sin theta) in *. set (c := cos theta) in *.
  rewrite !xdiv_fin by exact Hm.
  set (X := (a ^ 2 * c ^ 2 + b ^ 2 * s ^ 2) * (a * b * PI) * 0.25 / (a * b * PI)).
  set (Y := - (b ^ 2 - a ^ 2) * s * c * (a * b * PI) * 0.25 / (a * b * PI)).
  set (Z := (a ^ 2 * s ^ 2 + b ^ 2 * c ^ 2) * (a * b * PI) * 0.25 / (a * b * PI)).
  assert (HX : X = (a ^ 2 * c ^ 2 + b ^ 2 * s ^ 2) / 4)
    by (subst X; unfold_decimals; field; nz).
  assert (HY : Y = (a ^ 2 - b ^ 2) * s * c / 4)
    by (subst Y; unfold_decimals; field; nz).
  assert (HZ : Z = (a ^ 2 * s ^ 2 + b ^ 2 * c ^ 2) / 4)
    by (subst Z; unfold_decimals; field; nz).
  assert (Hd : 0 <= a ^ 2 - b ^ 2) by (simpl; nra).
  assert (Hq : sqrt ((Z - X) ^ 2 + 4 * Y ^ 2) = (a ^ 2 - b ^ 2) / 4).
  { replace ((Z - X) ^ 2 + 4 * Y ^ 2)
      with (((a ^ 2 - b ^ 2) / 4) ^ 2 * ((s ^ 2 + c ^ 2) * (s ^ 2 + c ^ 2)))
      by (rewrite HX, HY, HZ; field).
    rewrite Hsc, !Rmult_1_r. apply sqrt_pow2. lra. }
  assert (HXZ : Z + X = (a ^ 2 + b ^ 2) / 4).
  { replace (Z + X) with ((a ^ 2 + b ^ 2) / 4 * (s ^ 2 + c ^ 2))
      by (rewrite HX, HZ; field).
    rewrite Hsc. ring. }
  rewrite eigh_2x2_fin, Hq, HXZ.
  replace (0.5 * ((a ^ 2 + b ^ 2) / 4 + (a ^ 2 - b ^ 2) / 4)) with ((a / 2) ^ 2)
    by (unfold_decimals; field).
  replace (0.5 * ((a ^ 2 + b ^ 2) / 4 - (a ^ 2 - b ^ 2) / 4)) with ((b / 2) ^ 2)
    by (unfold_decimals; field).
  rewrite !xsqrt_fin by apply pow2_ge_0.
  rewrite !sqrt_pow2 by lra.
  cbn [xatan2 xopp xmul].
  tuple_eq; try (field; nz); try lra.
  f_equal.
  - rewrite HY. field.
  - replace (- (Z - X - (a ^ 2 - b ^ 2) / 4))
      with ((a ^ 2 - b ^ 2) / 2 * (c * c) +
            (a ^ 2 - b ^ 2) / 4 * (1 - (s ^ 2 + c ^ 2)))
      by (rewrite HX, HZ; field).
    rewrite Hsc. ring.
Qed.

(** ** The two round trips *)

Lemma cos_quarter_nonzero : cos (-0.25) <> 0.
Proof.
  pose proof PI2_1.
  apply Rgt_not_eq, cos_gt_0; lra.
Qed.

(** C2 (amended). For a >= b > 0, [gparams_from_conic] applied to
    [conic_from_gparams] returns a tuple (not [None]) with the same center
    and the same semi-axes; when moreover a > b and cos theta <> 0, the
    returned angle is congruent to theta modulo PI. *)
Theorem gparams_conic_roundtrip (x0 y0 a b theta : R) :
  0 < b -> b <= a ->
  exists theta',
    gparams_from_conic (conic_from_gparams (x0, y0, a, b, theta)) =
    Some (Fin x0, Fin y0, Fin a, Fin b, Fin theta') /\
    (b < a -> cos theta <> 0 -> cong_mod_pi theta' theta).
Proof.
  intros Hb Hab. eexists. split.
  - apply gparams_from_conic_from_gparams; assumption.
  - intros Hlt Hc. apply atan2_axis; [simpl; nra | assumption].
Qed.

(** The self-test's ellipse (450, 320, 300, 200, -0.25). *)
Lemma gparams_conic_roundtrip_scenario :
  0 < 200 /\ 200 <= 300 /\
  exists theta',
    gparams_from_conic (conic_from_gparams (450, 320, 300, 200, -0.25)) =
    Some (Fin 450, Fin 320, Fin 300, Fin 200, Fin theta') /\
    cong_mod_pi theta' (-0.25).
Proof.
  split; [lra |]. split; [lra |].
  destruct (gparams_conic_roundtrip 450 320 300 200 (-0.25)) as (t & Hg & Ht);
    [lra | lra |].
  exists t. split; [exact Hg |].
  apply Ht; [lra | exact cos_quarter_nonzero].
Defined.

(** C2 as stated fails on a circle: with a = b = 1 and theta = PI/4 the
    conic does not depend on theta, and the returned angle is 0. *)
Lemma gparams_conic_roundtrip_circle :
  0 < 1 /\ 1 <= 1 /\
  gparams_from_conic (conic_from_gparams (0, 0, 1, 1, PI / 4)) =
  Some (Fin 0, Fin 0, Fin 1, Fin 1, Fin 0) /\
  ~ cong_mod_pi 0 (PI / 4).
Proof.
  split; [lra |]. split; [lra |]. split; [| exact not_cong_mod_pi_0_quarter].
  rewrite gparams_from_conic_from_gparams by lra.
  replace (2 * (1 ^ 2 - 1 ^ 2)) with 0 by ring.
  rewrite !Rmult_0_l, atan2_origin. reflexivity.
Qed.

(** C3 (amended). For a >= b > 0, [gparams_from_moments] applied to
    [moments_from_gparams] returns a tuple with the same center and the same
    semi-axes; when moreover a > b and cos theta <> 0, the returned angle,
    computed as atan2(V[0,0], -V[1,0]), is congruent to theta modulo PI. *)
Theorem gparams_moments_roundtrip (x0 y0 a b theta : R) :
  0 < b -> b <= a ->
  exists theta',
    gparams_from_moments (moments_from_gparams (x0, y0, a, b, theta)) =
    (Fin x0, Fin y0, Fin a, Fin b, Fin theta') /\
    (b < a -> cos theta <> 0 -> cong_mod_pi theta' theta).
Proof.
  intros Hb Hab. eexists. split.
  - apply gparams_from_moments_from_gparams; assumption.
  - intros Hlt Hc. apply atan2_axis; [simpl; nra | assumption].
Qed.

(** The self-test's ellipse (450, 320, 300, 200, -0.25). *)
Lemma gparams_moments_roundtrip_scenario :
  0 < 200 /\ 200 <= 300 /\
  exists theta',
    gparams_from_moments (moments_from_gparams (450, 320, 300, 200, -0.25)) =
    (Fin 450, Fin 320, Fin 300, Fin 200, Fin theta') /\
    cong_mod_pi theta' (-0.25).
Proof.
  split; [lra |]. split; [lra |].
  destruct (gparams_moments_roundtrip 450 320 300 200 (-0.25)) as (t & Hg & Ht);
    [lra | lra |].
  exists t. split; [exact Hg |].
  apply Ht; [lra | exact cos_quarter_nonzero].
Defined.

(** C3 as stated fails on a circle: with a = b = 1 and theta = PI/4 the
    moments do not depend on theta, and the returned angle is 0. *)
Lemma gparams_moments_roundtrip_circle :
  0 < 1 /\ 1 <= 1 /\
  gparams_from_moments (moments_from_gparams (0, 0, 1, 1, PI / 4)) =
  (Fin 0, Fin 0, Fin 1, Fin 1, Fin 0) /\
  ~ cong_mod_pi 0 (PI / 4).
Proof.
  split; [lra |]. split; [lra |]. split; [| exact not_cong_mod_pi_0_quarter].
  rewrite gparams_from_moments_from_gparams by lra.
  replace ((1 ^ 2 - 1 ^ 2) / 2) with 0 by field.
  rewrite !Rmult_0_l, atan2_origin. reflexivity.
Qed.

(** ** The conic of the image of a curve under a homography *)

Lemma det3_mmul (M N : mat3) : det3 (mmul M N) = det3 M * det3 N.
Proof. destruct_mat M. destruct_mat N. cbn. ring. Qed.

Lemma invertible_det (H : mat3) : invertible H <-> det3 H <> 0.
Proof.
  split.
  - intros (G & HG & _) Hd.
    assert (Hdet : det3 (mmul G H) = 1) by (rewrite HG; cbn; ring).
    rewrite det3_mmul, Hd in Hdet. lra.
  - intros Hd. destruct_mat H.
    exists (((e * i - f * h) / det3 ((a, b, c), (d, e, f), (g, h, i)),
             (c * h - b * i) / det3 ((a, b, c), (d, e, f), (g, h, i)),
             (b * f - c * e) / det3 ((a, b, c), (d, e, f), (g, h, i))),
            ((f * g - d * i) / det3 ((a, b, c), (d, e, f), (g, h, i)),
             (a * i - c * g) / det3 ((a, b, c), (d, e, f), (g, h, i)),
             (c * d - a * f) / det3 ((a, b, c), (d, e, f), (g, h, i))),
            ((d * h - e * g) / det3 ((a, b, c), (d, e, f), (g, h, i)),
             (b * g - a * h) / det3 ((a, b, c), (d, e, f), (g, h, i)),
             (a * e - b * d) / det3 ((a, b, c), (d, e, f), (g, h, i)))).
    cbn in *. split; unfold I3; vec_eq; field; exact Hd.
Qed.

(** [inv3] returns the inverse of an invertible matrix. *)
Lemma inv3_correct (H : mat3) :
  det3 H <> 0 ->
  exists G, inv3 H = Some G /\ mmul G H = I3 /\ mmul H G = I3.
Proof.
  intros Hd. destruct_mat H. cbv beta iota zeta delta [inv3].
  destruct (Req_dec_T _ 0) as [Hz | _]; [contradiction |].
  eexists. split; [reflexivity |].
  cbn in *. split; unfold I3; vec_eq; field; exact Hd.
Qed.

(** An inverse is unique. *)
Lemma mmul_assoc (M N P : mat3) : mmul (mmul M N) P = mmul M (mmul N P).
Proof.
  destruct_mat M. destruct_mat N. destruct_mat P. cbn. vec_eq; ring.
Qed.

Lemma mmul_I3_l (M : mat3) : mmul I3 M = M.
Proof. destruct_mat M. cbn. vec_eq; ring. Qed.

Lemma mmul_I3_r (M : mat3) : mmul M I3 = M.
Proof. destruct_mat M. cbn. vec_eq; ring. Qed.

Lemma inverse_unique (H G G' : mat3) :
  mmul G H = I3 -> mmul H G' = I3 -> G = G'.
Proof.
  intros HG HG'.
  rewrite <- (mmul_I3_r G), <- HG', <- mmul_assoc, HG, mmul_I3_l. reflexivity.
Qed.

Lemma mapply_mmul (M N : mat3) (p : vec3) :
  mapply M (mapply N p) = mapply (mmul M N) p.
Proof.
  destruct_mat M. destruct_mat N. destruct p as [[x y] z]. cbn. vec_eq; ring.
Qed.

Lemma mapply_I3 (p : vec3) : mapply I3 p = p.
Proof. destruct p as [[x y] z]. cbn. vec_eq; ring. Qed.

(** The quadratic form of G^T M G at P is the quadratic form of M at G P. *)
Lemma conic_form_congruence (c : conic) (G : mat3) (P : vec3) :
  conic_form (matrix_conic (mmul (transpose G) (mmul (conic_matrix c) G))) P =
  conic_form c (mapply G P).
Proof.
  destruct c as [[[[[A B] C] D] E] F]. destruct_mat G. destruct P as [[u v] w].
  cbn. field.
Qed.

Lemma conic_form_affine (c : conic) (x y : R) :
  conic_form c (x, y, 1) = conic_eval c x y.
Proof. destruct c as [[[[[A B] C] D] E] F]. cbn. ring. Qed.

Lemma conic_form_homogeneous (c : conic) (u v w : R) :
  w <> 0 -> conic_eval c (u / w) (v / w) = conic_form c (u, v, w) / w ^ 2.
Proof.
  intros Hw. destruct c as [[[[[A B] C] D] E] F]. cbn. field. exact Hw.
Qed.

(** The code's matrix, written with 0.5, is the specification's. *)
Lemma conic_transform_spec (c : conic) (H G : mat3) :
  inv3 H = Some G ->
  conic_transform c H =
  Some (matrix_conic (mmul (transpose G) (mmul (conic_matrix c) G))).
Proof.
  intros HG. destruct c as [[[[[A B] C] D] E] F].
  unfold conic_transform. rewrite HG. destruct_mat G. cbn.
  tuple_eq; unfold_decimals; field.
Qed.

(** C8. For an invertible H, [conic_transform c H] returns the coefficients,
    off-diagonals doubled, of H^-T M H^-1, where M is the symmetric matrix of
    c with off-diagonals halved; hence where the implicit equation of c
    vanishes at (x, y), the equation of the result vanishes at the image
    H (x, y, 1), in homogeneous coordinates and, when the image is a point
    (u/w, v/w) of the plane, there. *)
Theorem conic_transform_correct (c : conic) (H : mat3) :
  invertible H ->
  exists Hinv c',
    mmul Hinv H = I3 /\ mmul H Hinv = I3 /\
    conic_transform c H = Some c' /\
    c' = matrix_conic (mmul (transpose Hinv) (mmul (conic_matrix c) Hinv)) /\
    forall x y, conic_eval c x y = 0 ->
      conic_form c' (mapply H (x, y, 1)) = 0 /\
      forall u v w, mapply H (x, y, 1) = (u, v, w) -> w <> 0 ->
        conic_eval c' (u / w) (v / w) = 0.
Proof.
  intros Hinv. apply invertible_det in Hinv.
  destruct (inv3_correct H Hinv) as (G & HG & HGH & HHG).
  exists G, (matrix_conic (mmul (transpose G) (mmul (conic_matrix c) G))).
  split; [exact HGH |]. split; [exact HHG |].
  split; [apply conic_transform_spec; exact HG |].
  split; [reflexivity |].
  intros x y Hxy.
  assert (Hform : conic_form
                    (matrix_conic (mmul (transpose G) (mmul (conic_matrix c) G)))
                    (mapply H (x, y, 1)) = 0).
  { rewrite conic_form_congruence, mapply_mmul, HGH, mapply_I3,
      conic_form_affine. exact Hxy. }
  split; [exact Hform |].
  intros u v w Huvw Hw.
  rewrite conic_form_homogeneous by exact Hw.
  rewrite <- Huvw, Hform. field. exact Hw.
Qed.

(** The unit circle through the homography of the module's self-test. *)
Lemma conic_transform_correct_example :
  let H : mat3 := ((1, -0.2, 0), (0, 0.7, 0), (0.001, 0.0015, 1)) in
  let c : conic := (1, 0, 1, 0, 0, -1) in
  invertible H /\
  exists Hinv c',
    mmul Hinv H = I3 /\ mmul H Hinv = I3 /\
    conic_transform c H = Some c' /\
    c' = matrix_conic (mmul (transpose Hinv) (mmul (conic_matrix c) Hinv)) /\
    forall x y, conic_eval c x y = 0 ->
      conic_form c' (mapply H (x, y, 1)) = 0 /\
      forall u v w, mapply H (x, y, 1) = (u, v, w) -> w <> 0 ->
        conic_eval c' (u / w) (v / w) = 0.
Proof.
  intros H c.
  assert (Hinv : invertible H) by (apply invertible_det; cbn; lra).
  split; [exact Hinv |].
  exact (conic_transform_correct c H Hinv).
Defined.

(** ** Moments of a polygon and of the reversed polygon *)

Lemma last_rev_hd {A : Type} (l : list A) (d : A) : last (rev l) d = hd d l.
Proof.
  destruct l as [| a l]; [reflexivity |].
  cbn [rev hd]. apply last_last.
Qed.

Lemma hd_rev_last {A : Type} (l : list A) (d : A) : hd d (rev l) = last l d.
Proof.
  rewrite <- (rev_involutive l) at 2. rewrite last_rev_hd. reflexivity.
Qed.

Lemma last_default {A : Type} (l : list A) (d d' : A) :
  l <> [] -> last l d = last l d'.
Proof.
  induction l as [| a l IH]; intros Hne; [contradiction |].
  destruct l as [| b l]; [reflexivity |].
  change (last (b :: l) d = last (b :: l) d'). apply IH. discriminate.
Qed.

Section EdgeSums.

Variable w : R * R -> R * R -> R.
Hypothesis w_antisym : forall p q, w p q = - w q p.

Lemma w_diag (p : R * R) : w p p = 0.
Proof. pose proof (w_antisym p p). lra. Qed.

Lemma psum_cons_hd (p : R * R) (l : list (R * R)) :
  psum w (p :: l) = w p (hd p l) + psum w l.
Proof.
  destruct l as [| q l]; cbn [hd].
  - cbn. rewrite w_diag. lra.
  - reflexivity.
Qed.

Lemma psum_snoc (l : list (R * R)) (q : R * R) :
  psum w (l ++ [q]) = psum w l + w (last l q) q.
Proof.
  induction l as [| a l IH].
  - cbn. rewrite w_diag. lra.
  - destruct l as [| b l].
    + cbn. lra.
    + change (w a b + psum w ((b :: l) ++ [q]) =
              w a b + psum w (b :: l) + w (last (b :: l) q) q).
      rewrite IH. lra.
Qed.

Lemma psum_rev (l : list (R * R)) : psum w (rev l) = - psum w l.
Proof.
  induction l as [| a l IH].
  - cbn. lra.
  - cbn [rev]. rewrite psum_snoc, IH, last_rev_hd, psum_cons_hd.
    rewrite (w_antisym (hd a l) a). lra.
Qed.

(** The closed path through [l], started from its last point, and the
    closed path through [rev l]. *)
Lemma psum_closed_rev (l : list (R * R)) (d : R * R) :
  psum w (last (rev l) d :: rev l) = - psum w (last l d :: l).
Proof.
  rewrite !psum_cons_hd, psum_rev, last_rev_hd, hd_rev_last.
  destruct l as [| h t].
  - cbn. rewrite w_diag. lra.
  - cbn [hd].
    rewrite (last_default (h :: t) h d) by discriminate.
    rewrite (w_antisym h (last (h :: t) d)). lra.
Qed.

End EdgeSums.

Lemma w00_antisym (p q : R * R) : w00 p q = - w00 q p.
Proof. unfold w00. ring. Qed.
Lemma w10_antisym (p q : R * R) : w10 p q = - w10 q p.
Proof. unfold w10, w00. ring. Qed.
Lemma w01_antisym (p q : R * R) : w01 p q = - w01 q p.
Proof. unfold w01, w00. ring. Qed.
Lemma w20_antisym (p q : R * R) : w20 p q = - w20 q p.
Proof. unfold w20, w00. ring. Qed.
Lemma w11_antisym (p q : R * R) : w11 p q = - w11 q p.
Proof. unfold w11, w00. ring. Qed.
Lemma w02_antisym (p q : R * R) : w02 p q = - w02 q p.
Proof. unfold w02, w00. ring. Qed.

(** The loop adds up the edge weights along the path that starts at the
    previous point. *)
Lemma fold_contour_step (l : list (R * R)) (s : contour_acc) :
  let r := fold_left contour_step l s in
  let p := (xi_1 s, yi_1 s) in
  a00 r = a00 s + psum w00 (p :: l) /\
  a10 r = a10 s + psum w10 (p :: l) /\
  a01 r = a01 s + psum w01 (p :: l) /\
  a20 r = a20 s + psum w20 (p :: l) /\
  a11 r = a11 s + psum w11 (p :: l) /\
  a02 r = a02 s + psum w02 (p :: l).
Proof.
  revert s. induction l as [| [x y] l IH]; intros s.
  - cbn. repeat split; lra.
  - cbn [fold_left].
    destruct (IH (contour_step s (x, y))) as (H00 & H10 & H01 & H20 & H11 & H02).
    cbv zeta. rewrite H00, H10, H01, H20, H11, H02.
    cbn [contour_step a00 a10 a01 a20 a11 a02 xi_1 yi_1 psum].
    unfold w10, w01, w20, w11, w02, w00. cbn [fst snd].
    repeat split; ring.
Qed.

Lemma contour_sums_closed (l : list (R * R)) (s : contour_acc) :
  contour_sums l = Some s ->
  forall d,
  a00 s = psum w00 (last l d :: l) /\
  a10 s = psum w10 (last l d :: l) /\
  a01 s = psum w01 (last l d :: l) /\
  a20 s = psum w20 (last l d :: l) /\
  a11 s = psum w11 (last l d :: l) /\
  a02 s = psum w02 (last l d :: l).
Proof.
  intros Hs d. destruct l as [| p t]; [discriminate |].
  unfold contour_sums in Hs.
  rewrite (last_default (p :: t) d p) by discriminate.
  destruct (last (p :: t) p) as [x y] eqn:Hlast.
  injection Hs as <-.
  pose proof (fold_contour_step (p :: t) (mk_acc 0 0 0 0 0 0 x y)) as H.
  cbv zeta in H. cbn [a00 a10 a01 a20 a11 a02 xi_1 yi_1] in H.
  rewrite !Rplus_0_l in H. exact H.
Qed.

Lemma contour_sums_nonempty (l : list (R * R)) :
  l <> [] -> exists s, contour_sums l = Some s.
Proof.
  destruct l as [| p t]; [contradiction |]. intros _.
  unfold contour_sums. destruct (last (p :: t) p) as [x y]. eauto.
Qed.

(** Reversing the polygon negates all six accumulators. *)
Lemma contour_sums_rev (l : list (R * R)) (s : contour_acc) :
  contour_sums l = Some s ->
  exists s', contour_sums (rev l) = Some s' /\
    a00 s' = - a00 s /\ a10 s' = - a10 s /\ a01 s' = - a01 s /\
    a20 s' = - a20 s /\ a11 s' = - a11 s /\ a02 s' = - a02 s.
Proof.
  intros Hs.
  assert (Hne : rev l <> []).
  { destruct l as [| p t]; [discriminate |].
    cbn [rev]. intros H. apply app_eq_nil in H. destruct H; discriminate. }
  destruct (contour_sums_nonempty _ Hne) as [s' Hs'].
  exists s'. split; [exact Hs' |].
  destruct (contour_sums_closed _ _ Hs (0, 0)) as (H00 & H10 & H01 & H20 & H11 & H02).
  destruct (contour_sums_closed _ _ Hs' (0, 0))
    as (H00' & H10' & H01' & H20' & H11' & H02').
  rewrite H00, H10, H01, H20, H11, H02, H00', H10', H01', H20', H11', H02'.
  repeat split.
  - apply psum_closed_rev, w00_antisym.
  - apply psum_closed_rev, w10_antisym.
  - apply psum_closed_rev, w01_antisym.
  - apply psum_closed_rev, w20_antisym.
  - apply psum_closed_rev, w11_antisym.
  - apply psum_closed_rev, w02_antisym.
Qed.

(** C9 (amended). In exact real arithmetic, for a polygon whose accumulated
    raw area a00 is nonzero, [moments_from_contour] returns on the reversed
    point sequence exactly the six moments it returns on the original one, and
    the returned m00 is positive. *)
Theorem moments_from_contour_rev (xypoints : list (R * R)) (s : contour_acc) :
  contour_sums xypoints = Some s -> a00 s <> 0 ->
  moments_from_contour (rev xypoints) = moments_from_contour xypoints /\
  exists m00 m10 m01 mu20 mu11 mu02,
    moments_from_contour xypoints =
    Some (Fin m00, Fin m10, Fin m01, Fin mu20, Fin mu11, Fin mu02) /\
    0 < m00.
Proof.
  intros Hs Hnz.
  destruct (contour_sums_rev _ _ Hs)
    as (s' & Hs' & H00 & H10 & H01 & H20 & H11 & H02).
  unfold moments_from_contour. rewrite Hs, Hs'.
  destruct (Rlt_dec 0 (a00 s)) as [Hpos | Hneg];
    destruct (Rlt_dec 0 (a00 s')) as [Hpos' | Hneg']; try lra.
  - flip_acc a00 s s' H00. flip_acc a10 s s' H10. flip_acc a01 s s' H01.
    flip_acc a20 s s' H20. flip_acc a11 s s' H11. flip_acc a02 s s' H02.
    split; [reflexivity |].
    rewrite xdiv_fin by lra. cbn [xmul xsub xadd xopp].
    do 6 eexists. split; [reflexivity | lra].
  - flip_acc a00 s s' H00. flip_acc a10 s s' H10. flip_acc a01 s s' H01.
    flip_acc a20 s s' H20. flip_acc a11 s s' H11. flip_acc a02 s s' H02.
    split; [reflexivity |].
    rewrite xdiv_fin by lra. cbn [xmul xsub xadd xopp].
    do 6 eexists. split; [reflexivity | lra].
Qed.

(** The triangle (0,0), (1,0), (0,1), wound counter-clockwise. *)
Lemma moments_from_contour_rev_triangle :
  exists s,
    contour_sums [(0, 0); (1, 0); (0, 1)] = Some s /\ a00 s <> 0 /\
    moments_from_contour (rev [(0, 0); (1, 0); (0, 1)]) =
    moments_from_contour [(0, 0); (1, 0); (0, 1)] /\
    exists m00 m10 m01 mu20 mu11 mu02,
      moments_from_contour [(0, 0); (1, 0); (0, 1)] =
      Some (Fin m00, Fin m10, Fin m01, Fin mu20, Fin mu11, Fin mu02) /\
      0 < m00.
Proof.
  eexists. split; [reflexivity |].
  assert (Hnz : a00 (fold_left contour_step [(0, 0); (1, 0); (0, 1)]
                       (mk_acc 0 0 0 0 0 0 0 1)) <> 0) by (cbn; lra).
  split; [exact Hnz |].
  exact (moments_from_contour_rev [(0, 0); (1, 0); (0, 1)] _ eq_refl Hnz).
Defined.

(** ** The degenerate eigenvector *)

Lemma not_cong_mod_pi_0_half : ~ cong_mod_pi 0 (PI / 2).
Proof.
  intros [k Hk].
  assert (H : IZR (1 + 2 * k) * PI = 0).
  { rewrite plus_IZR, mult_IZR. lra. }
  apply Rmult_integral in H. destruct H as [H | H].
  - apply eq_IZR_R0 in H. lia.
  - exact (PI_neq0 H).
Qed.

(** With cos theta = 0 the column that [eigh_2x2] returns for the larger
    eigenvalue is the zero vector, and both conversions return the angle 0
    for an ellipse whose major axis is vertical. *)
Lemma gparams_from_conic_vertical :
  gparams_from_conic (conic_from_gparams (0, 0, 2, 1, PI / 2)) =
  Some (Fin 0, Fin 0, Fin 2, Fin 1, Fin 0) /\
  ~ cong_mod_pi 0 (PI / 2).
Proof.
  split; [| exact not_cong_mod_pi_0_half].
  rewrite gparams_from_conic_from_gparams by lra.
  rewrite cos_PI2, !Rmult_0_r, atan2_origin. reflexivity.
Qed.

Lemma gparams_from_moments_vertical :
  gparams_from_moments (moments_from_gparams (0, 0, 2, 1, PI / 2)) =
  (Fin 0, Fin 0, Fin 2, Fin 1, Fin 0) /\
  ~ cong_mod_pi 0 (PI / 2).
Proof.
  split; [| exact not_cong_mod_pi_0_half].
  rewrite gparams_from_moments_from_gparams by lra.
  rewrite cos_PI2, !Rmult_0_r, atan2_origin. reflexivity.
Qed.

(** ** Points of the parametric ellipse *)

Lemma ellipse_point_on_conic (x0 y0 a b theta p : R) :
  conic_eval (conic_from_gparams (x0, y0, a, b, theta))
             (a * cos p * cos theta - b * sin p * sin theta + x0)
             (a * cos p * sin theta + b * sin p * cos theta + y0) = 0.
Proof.
  unfold conic_eval, conic_from_gparams.
  pose proof (sin_cos_sq theta) as Ht. pose proof (sin_cos_sq p) as Hp.
  set (s := sin theta) in *. set (c := cos theta) in *.
  set (sp := sin p) in *. set (cp := cos p) in *.
  match goal with
  | |- ?L = 0 =>
      replace L with
        (a ^ 2 * b ^ 2 * ((s ^ 2 + c ^ 2) ^ 2 * (sp ^ 2 + cp ^ 2) - 1))
  end.
  - rewrite Ht, Hp. ring.
  - ring.
Qed.

(** X1. In exact real arithmetic: every point that [gparams_evaluate] returns,
    at any angle, satisfies the implicit equation of the conic that
    [conic_from_gparams] builds from the same parameters; the two arrays have
    the size of [phi]. *)
Theorem gparams_evaluate_on_conic (g : gparams) (phi : list R) :
  length (fst (gparams_evaluate g phi)) = length phi /\
  length (snd (gparams_evaluate g phi)) = length phi /\
  Forall (fun xy => conic_eval (conic_from_gparams g) (fst xy) (snd xy) = 0)
         (combine (fst (gparams_evaluate g phi)) (snd (gparams_evaluate g phi))).
Proof.
  destruct g as [[[[x0 y0] a] b] theta].
  unfold gparams_evaluate. cbn [fst snd].
  rewrite !length_map. split; [reflexivity |]. split; [reflexivity |].
  induction phi as [| p phi IH]; cbn [map combine].
  - constructor.
  - constructor; [| exact IH].
    cbn [fst snd]. apply ellipse_point_on_conic.
Qed.

(** ** The conversions on an ellipse's conic, in closed form *)

Lemma conic_k_nonzero (c : conic) :
  0 < conic_T c -> conic_S c <> 0 -> 0.25 * conic_T c ^ 2 / conic_S c <> 0.
Proof.
  intros HT HS.
  assert (0 < conic_T c ^ 2) by (simpl; nra).
  unfold Rdiv. apply Rmult_integral_contrapositive_currified.
  - lra.
  - apply Rinv_neq_0_compat. exact HS.
Qed.

(** What [gparams_from_conic] computes when neither guard fires. *)
Lemma gparams_from_conic_ellipse (A B C D E F : R) :
  let c : conic := (A, B, C, D, E, F) in
  let k := 0.25 * conic_T c ^ 2 / conic_S c in
  let q := sqrt ((C - A) ^ 2 + 4 * (0.5 * B) ^ 2) in
  0 < conic_T c -> conic_S c <> 0 ->
  gparams_from_conic c =
  Some (Fin ((B * E - 2 * C * D) / (4 * A * C - B ^ 2)),
        Fin ((-2 * A * E + B * D) / (4 * A * C - B ^ 2)),
        xsqrt (Fin (0.5 * (C + A + q) / k)),
        xsqrt (Fin (0.5 * (C + A - q) / k)),
        Fin (atan2 (- (2 * (0.5 * B))) (C - A + q))).
Proof.
  intros c k q HT HS.
  pose proof (conic_k_nonzero c HT HS) as Hk. fold k in Hk.
  unfold gparams_from_conic.
  rewrite (conic_scale_ellipse c HT HS). cbn [isinf]. fold k.
  unfold c at 1. rewrite eigh_2x2_fin. fold q.
  assert (HT' : 4 * A * C - B ^ 2 <> 0).
  { unfold c, conic_T in HT. replace (4 * A * C - B ^ 2) with (4 * A * C - B * B) by ring. lra. }
  rewrite !xdiv_fin by assumption.
  reflexivity.
Qed.

(** What [moments_from_conic] computes when neither guard fires. *)
Lemma moments_from_conic_ellipse (A B C D E F : R) :
  let c : conic := (A, B, C, D, E, F) in
  let k := 0.25 * conic_T c ^ 2 / conic_S c in
  let ab := 2.0 * conic_S c / (conic_T c * sqrt (conic_T c)) in
  let x0 := (B * E - 2 * C * D) / (4 * A * C - B ^ 2) in
  let y0 := (-2 * A * E + B * D) / (4 * A * C - B ^ 2) in
  0 < conic_T c -> conic_S c <> 0 ->
  moments_from_conic c =
  Some (Fin (PI * ab), Fin (x0 * (PI * ab)), Fin (y0 * (PI * ab)),
        Fin (0.25 * (C / k) * (PI * ab)),
        Fin (-0.125 * (B / k) * (PI * ab)),
        Fin (0.25 * (A / k) * (PI * ab))).
Proof.
  intros c k ab x0 y0 HT HS.
  pose proof (conic_k_nonzero c HT HS) as Hk. fold k in Hk.
  unfold moments_from_conic.
  rewrite (conic_scale_ellipse c HT HS). cbn [isinf]. fold k. fold ab.
  unfold c at 1.
  assert (HT' : 4 * A * C - B ^ 2 <> 0).
  { unfold c, conic_T in HT. replace (4 * A * C - B ^ 2) with (4 * A * C - B * B) by ring. lra. }
  rewrite !xdiv_fin by assumption.
  cbn [xpow xmul xadd xsub xopp].
  assert (Hden : 4 * (A / k) * (C / k) + - (B / k * (B / k * 1)) <> 0).
  { replace (4 * (A / k) * (C / k) + - (B / k * (B / k * 1)))
      with ((4 * A * C - B ^ 2) * (/ k * / k)) by (field; exact Hk).
    apply Rmult_integral_contrapositive_currified; [exact HT' |].
    apply Rmult_integral_contrapositive_currified;
      apply Rinv_neq_0_compat; exact Hk. }
  rewrite !xdiv_fin by exact Hden.
  cbn [xpow xmul xadd xsub xopp].
  subst x0 y0. tuple_eq; try reflexivity; field; repeat split; assumption.
Qed.

(** ** Positive multiples of a conic *)

Lemma atan2_scale (k y x : R) : 0 < k -> atan2 (k * y) (k * x) = atan2 y x.
Proof.
  intros Hk. unfold atan2.
  assert (Hq : x <> 0 -> k * y / (k * x) = y / x) by (intros; field; lra).
  destruct (Rlt_dec 0 x) as [Hx | Hx].
  - destruct (Rlt_dec 0 (k * x)) as [_ | H]; [| nra].
    rewrite Hq by lra. reflexivity.
  - destruct (Rlt_dec 0 (k * x)) as [H | _]; [nra |].
    destruct (Rlt_dec x 0) as [Hx' | Hx'].
    + destruct (Rlt_dec (k * x) 0) as [_ | H]; [| nra].
      rewrite Hq by lra.
      destruct (Rlt_dec y 0), (Rlt_dec (k * y) 0); try reflexivity; nra.
    + destruct (Rlt_dec (k * x) 0) as [H | _]; [nra |].
      destruct (Rlt_dec 0 y), (Rlt_dec 0 (k * y)); try reflexivity; try nra.
      destruct (Rlt_dec y 0), (Rlt_dec (k * y) 0); try reflexivity; nra.
Qed.

Lemma conic_mul_not_ellipse (k : R) (c : conic) :
  0 < k ->
  ((~ 0 < conic_T (conic_mul k c) \/ conic_S (conic_mul k c) = 0) <->
   (~ 0 < conic_T c \/ conic_S c = 0)).
Proof.
  intros Hk. rewrite conic_T_mul, conic_S_mul.
  assert (Hk2 : 0 < k ^ 2) by (apply pow_lt; lra).
  assert (Hk3 : 0 < k ^ 3) by (apply pow_lt; lra).
  split; intros [H | H].
  - left. intros HT. apply H. apply Rmult_lt_0_compat; assumption.
  - right. apply Rmult_integral in H. destruct H; [lra | assumption].
  - left. intros HT. apply H. nra.
  - right. rewrite H. ring.
Qed.

Lemma sqrt_scale_sq (k r : R) : 0 < k -> 0 <= r -> sqrt (k ^ 2 * r) = k * sqrt r.
Proof.
  intros Hk Hr. rewrite sqrt_mult_alt by (apply pow2_ge_0).
  rewrite sqrt_pow2 by lra. reflexivity.
Qed.

(** X2. In exact real arithmetic: [gparams_from_conic] does not depend on the
    positive scale of the conic: on k * c, k > 0, it returns what it returns
    on c, the sentinel included. *)
Theorem gparams_from_conic_mul_pos (k : R) (c : conic) :
  0 < k -> gparams_from_conic (conic_mul k c) = gparams_from_conic c.
Proof.
  intros Hk.
  destruct (Rlt_dec 0 (conic_T c)) as [HT | HT];
    [destruct (Req_dec_T (conic_S c) 0) as [HS | HS] |].
  2: {
    assert (HT' : 0 < conic_T (conic_mul k c)).
    { rewrite conic_T_mul. assert (0 < k ^ 2) by (apply pow_lt; lra). nra. }
    assert (HS' : conic_S (conic_mul k c) <> 0).
    { rewrite conic_S_mul. assert (0 < k ^ 3) by (apply pow_lt; lra).
      apply Rmult_integral_contrapositive_currified; [lra | exact HS]. }
    destruct c as [[[[[A B] C] D] E] F].
    rewrite (gparams_from_conic_ellipse A B C D E F HT HS).
    cbn [conic_mul] in *.
    rewrite (gparams_from_conic_ellipse _ _ _ _ _ _ HT' HS').
    change (A * k, B * k, C * k, D * k, E * k, F * k)
      with (conic_mul k (A, B, C, D, E, F)).
    rewrite conic_T_mul, conic_S_mul.
    set (T := conic_T (A, B, C, D, E, F)) in *.
    set (S := conic_S (A, B, C, D, E, F)) in *.
    assert (HTnz : 4 * A * C - B ^ 2 <> 0).
    { subst T. cbn in HT. replace (4 * A * C - B ^ 2) with (4 * A * C - B * B) by ring. lra. }
    replace ((C * k - A * k) ^ 2 + 4 * (0.5 * (B * k)) ^ 2)
      with (k ^ 2 * ((C - A) ^ 2 + 4 * (0.5 * B) ^ 2)) by ring.
    rewrite sqrt_scale_sq by (try assumption; apply eigh_disc_nonneg).
    set (q := sqrt ((C - A) ^ 2 + 4 * (0.5 * B) ^ 2)).
    replace (- (2 * (0.5 * (B * k)))) with (k * - (2 * (0.5 * B))) by ring.
    replace (C * k - A * k + k * q) with (k * (C - A + q)) by ring.
    rewrite atan2_scale by assumption.
    assert (HTnz' : 4 * (A * k) * (C * k) - (B * k) ^ 2 <> 0).
    { cbn in HT'.
      replace (4 * (A * k) * (C * k) - (B * k) ^ 2)
        with (4 * (A * k) * (C * k) - B * k * (B * k)) by ring. lra. }
    tuple_eq; try reflexivity.
    - field. split; assumption.
    - field. split; assumption.
    - do 2 f_equal. unfold_decimals. field. repeat split; lra.
    - do 2 f_equal. unfold_decimals. field. repeat split; lra.
  }
  - assert (Hn : gparams_from_conic c = None).
    { apply gparams_from_conic_None, conic_scale_isinf. right. exact HS. }
    rewrite Hn. apply gparams_from_conic_None, conic_scale_isinf.
    apply conic_mul_not_ellipse; [exact Hk | right; exact HS].
  - assert (Hn : gparams_from_conic c = None).
    { apply gparams_from_conic_None, conic_scale_isinf. left. exact HT. }
    rewrite Hn. apply gparams_from_conic_None, conic_scale_isinf.
    apply conic_mul_not_ellipse; [exact Hk | left; exact HT].
Qed.

(** The conic of the module's self-test, scaled by 1e-3. *)
Lemma gparams_from_conic_mul_pos_scenario :
  0 < 0.001 /\
  gparams_from_conic
    (conic_mul 0.001 (conic_from_gparams (450, 320, 300, 200, -0.25))) =
  gparams_from_conic (conic_from_gparams (450, 320, 300, 200, -0.25)).
Proof.
  split; [lra |]. apply gparams_from_conic_mul_pos. lra.
Defined.

(** X3. In exact real arithmetic: [moments_from_conic] does not depend on the
    positive scale of the conic: on k * c, k > 0, it returns what it returns
    on c, the sentinel included. *)
Theorem moments_from_conic_mul_pos (k : R) (c : conic) :
  0 < k -> moments_from_conic (conic_mul k c) = moments_from_conic c.
Proof.
  intros Hk.
  destruct (Rlt_dec 0 (conic_T c)) as [HT | HT];
    [destruct (Req_dec_T (conic_S c) 0) as [HS | HS] |].
  2: {
    assert (HT' : 0 < conic_T (conic_mul k c)).
    { rewrite conic_T_mul. assert (0 < k ^ 2) by (apply pow_lt; lra). nra. }
    assert (HS' : conic_S (conic_mul k c) <> 0).
    { rewrite conic_S_mul. assert (0 < k ^ 3) by (apply pow_lt; lra).
      apply Rmult_integral_contrapositive_currified; [lra | exact HS]. }
    destruct c as [[[[[A B] C] D] E] F].
    rewrite (moments_from_conic_ellipse A B C D E F HT HS).
    cbn [conic_mul] in *.
    rewrite (moments_from_conic_ellipse _ _ _ _ _ _ HT' HS').
    change (A * k, B * k, C * k, D * k, E * k, F * k)
      with (conic_mul k (A, B, C, D, E, F)).
    rewrite conic_T_mul, conic_S_mul.
    set (T := conic_T (A, B, C, D, E, F)) in *.
    set (S := conic_S (A, B, C, D, E, F)) in *.
    assert (HTnz : 4 * A * C - B ^ 2 <> 0).
    { subst T. cbn in HT.
      replace (4 * A * C - B ^ 2) with (4 * A * C - B * B) by ring. lra. }
    assert (HTnz' : 4 * (A * k) * (C * k) - (B * k) ^ 2 <> 0).
    { cbn in HT'.
      replace (4 * (A * k) * (C * k) - (B * k) ^ 2)
        with (4 * (A * k) * (C * k) - B * k * (B * k)) by ring. lra. }
    rewrite sqrt_scale_sq by lra.
    assert (Hsq : 0 < sqrt T) by (apply sqrt_lt_R0; exact HT).
    set (r := sqrt T) in *.
    tuple_eq; unfold_decimals; field; repeat split; lra.
  }
  - assert (Hn : moments_from_conic c = None).
    { apply moments_from_conic_None, conic_scale_isinf. right. exact HS. }
    rewrite Hn. apply moments_from_conic_None, conic_scale_isinf.
    apply conic_mul_not_ellipse; [exact Hk | right; exact HS].
  - assert (Hn : moments_from_conic c = None).
    { apply moments_from_conic_None, conic_scale_isinf. left. exact HT. }
    rewrite Hn. apply moments_from_conic_None, conic_scale_isinf.
    apply conic_mul_not_ellipse; [exact Hk | left; exact HT].
Qed.

Lemma moments_from_conic_mul_pos_scenario :
  0 < 0.001 /\
  moments_from_conic
    (conic_mul 0.001 (conic_from_gparams (450, 320, 300, 200, -0.25))) =
  moments_from_conic (conic_from_gparams (450, 320, 300, 200, -0.25)).
Proof.
  split; [lra |]. apply moments_from_conic_mul_pos. lra.
Defined.

(** ** Geometric parameters -> conic -> moments *)

(** X4. In exact real arithmetic: for a > 0 and b > 0, the moments that
    [moments_from_conic] computes from the conic of the geometric parameters
    are exactly the moments that [moments_from_gparams] computes from the
    parameters. *)
Theorem moments_from_conic_from_gparams (x0 y0 a b theta : R) :
  0 < a -> 0 < b ->
  moments_from_conic (conic_from_gparams (x0, y0, a, b, theta)) =
  Some (fin6 (moments_from_gparams (x0, y0, a, b, theta))).
Proof.
  intros Ha Hb.
  assert (Hab : 0 < a * b) by (apply Rmult_lt_0_compat; assumption).
  pose proof (conic_T_from_gparams x0 y0 a b theta) as HT.
  pose proof (conic_S_from_gparams x0 y0 a b theta) as HS.
  unfold conic_from_gparams in *. unfold moments_from_gparams, fin6.
  pose proof (sin_cos_sq theta) as Hsc.
  set (s := sin theta) in *. set (c := cos theta) in *.
  set (A := a ^ 2 * s ^ 2 + b ^ 2 * c ^ 2) in *.
  set (B := 2 * (b ^ 2 - a ^ 2) * s * c) in *.
  set (C := a ^ 2 * c ^ 2 + b ^ 2 * s ^ 2) in *.
  set (D := -2 * A * x0 - B * y0) in *.
  set (E := - B * x0 - 2 * C * y0) in *.
  set (F := A * x0 ^ 2 + B * x0 * y0 + C * y0 ^ 2 - a ^ 2 * b ^ 2) in *.
  assert (HTpos : 0 < 4 * a ^ 2 * b ^ 2) by (simpl; nra).
  assert (HSnz : 4 * a ^ 4 * b ^ 4 <> 0).
  { replace (4 * a ^ 4 * b ^ 4) with (4 * ((a * b) ^ 2 * (a * b) ^ 2)) by ring.
    assert (0 < (a * b) ^ 2) by (apply pow_lt; exact Hab). nra. }
  rewrite (moments_from_conic_ellipse A B C D E F)
    by (rewrite ?HT, ?HS; assumption).
  rewrite HT, HS.
  assert (Hsq : sqrt (4 * a ^ 2 * b ^ 2) = 2 * (a * b)).
  { replace (4 * a ^ 2 * b ^ 2) with ((2 * (a * b)) * (2 * (a * b))) by ring.
    apply sqrt_square. lra. }
  rewrite Hsq.
  assert (HT' : 4 * A * C - B ^ 2 = 4 * a ^ 2 * b ^ 2)
    by (rewrite <- HT; unfold conic_T; ring).
  rewrite HT'.
  replace (B * E - 2 * C * D) with ((4 * A * C - B ^ 2) * x0)
    by (subst D E; ring).
  replace (-2 * A * E + B * D) with ((4 * A * C - B ^ 2) * y0)
    by (subst D E; ring).
  rewrite HT'.
  clear HT HS F E D. subst B. clearbody A C.
  tuple_eq; unfold_decimals; field; repeat split; lra.
Qed.

Lemma moments_from_conic_from_gparams_scenario :
  0 < 300 /\ 0 < 200 /\
  moments_from_conic (conic_from_gparams (450, 320, 300, 200, -0.25)) =
  Some (fin6 (moments_from_gparams (450, 320, 300, 200, -0.25))).
Proof.
  split; [lra |]. split; [lra |].
  apply moments_from_conic_from_gparams; lra.
Defined.

(** ** Negative multiples of a conic *)

(** X5. In exact real arithmetic: on an ellipse's conic (T > 0, S <> 0)
    multiplied by k < 0, which is the same curve, [moments_from_conic] returns
    the opposite of each of the six moments it returns on the conic itself:
    the area m00 changes sign. *)
Theorem moments_from_conic_mul_neg (k : R) (c : conic) :
  k < 0 -> 0 < conic_T c -> conic_S c <> 0 ->
  exists m00 m10 m01 mu20 mu11 mu02 : R,
    moments_from_conic c =
    Some (Fin m00, Fin m10, Fin m01, Fin mu20, Fin mu11, Fin mu02) /\
    moments_from_conic (conic_mul k c) =
    Some (Fin (- m00), Fin (- m10), Fin (- m01),
          Fin (- mu20), Fin (- mu11), Fin (- mu02)) /\
    m00 <> 0.
Proof.
  intros Hk HT HS.
  assert (HT' : 0 < conic_T (conic_mul k c)).
  { rewrite conic_T_mul. assert (0 < (- k) ^ 2) by (apply pow_lt; lra).
    replace (k ^ 2) with ((- k) ^ 2) by ring. nra. }
  assert (HS' : conic_S (conic_mul k c) <> 0).
  { rewrite conic_S_mul. assert (0 < (- k) ^ 3) by (apply pow_lt; lra).
    apply Rmult_integral_contrapositive_currified; [| exact HS].
    replace (k ^ 3) with (- (- k) ^ 3) by ring. lra. }
  destruct c as [[[[[A B] C] D] E] F].
  rewrite (moments_from_conic_ellipse A B C D E F HT HS).
  cbn [conic_mul] in *.
  rewrite (moments_from_conic_ellipse _ _ _ _ _ _ HT' HS').
  change (A * k, B * k, C * k, D * k, E * k, F * k)
    with (conic_mul k (A, B, C, D, E, F)).
  rewrite conic_T_mul, conic_S_mul.
  set (T := conic_T (A, B, C, D, E, F)) in *.
  set (S := conic_S (A, B, C, D, E, F)) in *.
  assert (HTnz : 4 * A * C - B ^ 2 <> 0).
  { subst T. cbn in HT.
    replace (4 * A * C - B ^ 2) with (4 * A * C - B * B) by ring. lra. }
  assert (HTnz' : 4 * (A * k) * (C * k) - (B * k) ^ 2 <> 0).
  { cbn in HT'.
    replace (4 * (A * k) * (C * k) - (B * k) ^ 2)
      with (4 * (A * k) * (C * k) - B * k * (B * k)) by ring. lra. }
  replace (k ^ 2 * T) with ((- k) ^ 2 * T) by ring.
  rewrite sqrt_scale_sq by lra.
  assert (Hsq : 0 < sqrt T) by (apply sqrt_lt_R0; exact HT).
  set (r := sqrt T) in *.
  do 6 eexists. split; [reflexivity |]. split.
  - tuple_eq; unfold_decimals; field; repeat split; lra.
  - pose proof PI_RGT_0.
    apply Rmult_integral_contrapositive_currified; [lra |].
    unfold Rdiv. apply Rmult_integral_contrapositive_currified.
    + unfold_decimals. lra.
    + apply Rinv_neq_0_compat. nra.
Qed.

(** The negated unit circle. *)
Lemma moments_from_conic_mul_neg_circle :
  -1 < 0 /\ 0 < conic_T (1, 0, 1, 0, 0, -1) /\
  conic_S (1, 0, 1, 0, 0, -1) <> 0 /\
  exists m00 m10 m01 mu20 mu11 mu02 : R,
    moments_from_conic (1, 0, 1, 0, 0, -1) =
    Some (Fin m00, Fin m10, Fin m01, Fin mu20, Fin mu11, Fin mu02) /\
    moments_from_conic (conic_mul (-1) (1, 0, 1, 0, 0, -1)) =
    Some (Fin (- m00), Fin (- m10), Fin (- m01),
          Fin (- mu20), Fin (- mu11), Fin (- mu02)) /\
    m00 <> 0.
Proof.
  assert (HT : 0 < conic_T (1, 0, 1, 0, 0, -1)) by (cbn; lra).
  assert (HS : conic_S (1, 0, 1, 0, 0, -1) <> 0) by (cbn; lra).
  split; [lra |]. split; [exact HT |]. split; [exact HS |].
  apply moments_from_conic_mul_neg; [lra | exact HT | exact HS].
Defined.

(** ** Directions of [arctan2] *)

(** The angle that [atan2] returns for (x, y) points along (x, y). *)
Lemma atan2_parallel (y x : R) :
  x * sin (atan2 y x) = y * cos (atan2 y x).
Proof.
  assert (Hat : x <> 0 -> x * sin (atan (y / x)) = y * cos (atan (y / x))).
  { intros Hx. pose proof (tan_atan (y / x)) as Ht. unfold tan in Ht.
    assert (Hc : 0 < cos (atan (y / x))).
    { apply cos_gt_0; pose proof (atan_bound (y / x)); lra. }
    apply (Rmult_eq_reg_r (/ (x * cos (atan (y / x))))).
    - transitivity (sin (atan (y / x)) / cos (atan (y / x)));
        [field; split; lra |].
      rewrite Ht. field. split; lra.
    - apply Rinv_neq_0_compat, Rmult_integral_contrapositive_currified; lra. }
  unfold atan2.
  destruct (Rlt_dec 0 x) as [Hx | Hx]; [apply Hat; lra |].
  destruct (Rlt_dec x 0) as [Hx' | Hx'].
  - specialize (Hat ltac:(lra)).
    destruct (Rlt_dec y 0).
    + unfold Rminus. rewrite sin_plus, cos_plus, sin_neg, cos_neg, sin_PI, cos_PI.
      lra.
    + rewrite sin_plus, cos_plus, sin_PI, cos_PI. lra.
  - assert (x = 0) by lra. subst x.
    destruct (Rlt_dec 0 y); [rewrite cos_PI2; lra |].
    destruct (Rlt_dec y 0); [rewrite cos_neg, cos_PI2; lra |].
    assert (y = 0) by lra. subst y. lra.
Qed.

(** Angles along two perpendicular nonzero vectors differ by PI/2, up to
    a multiple of PI. *)
Lemma perpendicular_angles (x1 y1 x2 y2 t1 t2 : R) :
  x1 * sin t1 = y1 * cos t1 -> x2 * sin t2 = y2 * cos t2 ->
  x1 * x2 + y1 * y2 = 0 ->
  0 < x1 ^ 2 + y1 ^ 2 -> 0 < x2 ^ 2 + y2 ^ 2 ->
  cong_mod_pi t2 (t1 + PI / 2).
Proof.
  intros H1 H2 Hperp Hn1 Hn2.
  assert (Hcos : cos (t2 - t1) = 0).
  { rewrite cos_minus.
    set (c1 := cos t1) in *. set (s1 := sin t1) in *.
    set (c2 := cos t2) in *. set (s2 := sin t2) in *.
    assert (E1 : (x1 ^ 2 + y1 ^ 2) * c1 = (c1 * x1 + s1 * y1) * x1).
    { replace ((x1 ^ 2 + y1 ^ 2) * c1)
        with ((c1 * x1 + s1 * y1) * x1 - y1 * (x1 * s1 - y1 * c1)) by ring.
      rewrite H1. ring. }
    assert (E2 : (x1 ^ 2 + y1 ^ 2) * s1 = (c1 * x1 + s1 * y1) * y1).
    { replace ((x1 ^ 2 + y1 ^ 2) * s1)
        with ((c1 * x1 + s1 * y1) * y1 + x1 * (x1 * s1 - y1 * c1)) by ring.
      rewrite H1. ring. }
    assert (E3 : (x2 ^ 2 + y2 ^ 2) * c2 = (c2 * x2 + s2 * y2) * x2).
    { replace ((x2 ^ 2 + y2 ^ 2) * c2)
        with ((c2 * x2 + s2 * y2) * x2 - y2 * (x2 * s2 - y2 * c2)) by ring.
      rewrite H2. ring. }
    assert (E4 : (x2 ^ 2 + y2 ^ 2) * s2 = (c2 * x2 + s2 * y2) * y2).
    { replace ((x2 ^ 2 + y2 ^ 2) * s2)
        with ((c2 * x2 + s2 * y2) * y2 + x2 * (x2 * s2 - y2 * c2)) by ring.
      rewrite H2. ring. }
    apply (Rmult_eq_reg_l ((x1 ^ 2 + y1 ^ 2) * (x2 ^ 2 + y2 ^ 2)));
      [| apply Rgt_not_eq, Rmult_lt_0_compat; assumption].
    replace ((x1 ^ 2 + y1 ^ 2) * (x2 ^ 2 + y2 ^ 2) * (c2 * c1 + s2 * s1))
      with (((x1 ^ 2 + y1 ^ 2) * c1) * ((x2 ^ 2 + y2 ^ 2) * c2) +
            ((x1 ^ 2 + y1 ^ 2) * s1) * ((x2 ^ 2 + y2 ^ 2) * s2)) by ring.
    rewrite E1, E2, E3, E4.
    replace ((c1 * x1 + s1 * y1) * x1 * ((c2 * x2 + s2 * y2) * x2) +
             (c1 * x1 + s1 * y1) * y1 * ((c2 * x2 + s2 * y2) * y2))
      with ((c1 * x1 + s1 * y1) * (c2 * x2 + s2 * y2) * (x1 * x2 + y1 * y2))
      by ring.
    rewrite Hperp. ring. }
  destruct (cos_eq_0_0 _ Hcos) as [n Hn].
  exists n. lra.
Qed.

(** X6. In exact real arithmetic: on an ellipse's conic (T > 0, S <> 0)
    multiplied by k < 0, which is the same curve, [gparams_from_conic] returns
    the same center but the two semi-axes exchanged, so that a >= b is lost;
    when B <> 0 the angle is turned by PI/2 (modulo PI), so the tuple still
    describes the same ellipse. *)
Theorem gparams_from_conic_mul_neg (k A B C D E F : R) :
  k < 0 -> 0 < conic_T (A, B, C, D, E, F) -> conic_S (A, B, C, D, E, F) <> 0 ->
  exists (x0 y0 : R) (a b : xreal) (theta theta' : R),
    gparams_from_conic (A, B, C, D, E, F) =
    Some (Fin x0, Fin y0, a, b, Fin theta) /\
    gparams_from_conic (conic_mul k (A, B, C, D, E, F)) =
    Some (Fin x0, Fin y0, b, a, Fin theta') /\
    (B <> 0 -> cong_mod_pi theta' (theta + PI / 2)).
Proof.
  intros Hk HT HS.
  assert (HT' : 0 < conic_T (conic_mul k (A, B, C, D, E, F))).
  { rewrite conic_T_mul. assert (0 < (- k) ^ 2) by (apply pow_lt; lra).
    replace (k ^ 2) with ((- k) ^ 2) by ring. nra. }
  assert (HS' : conic_S (conic_mul k (A, B, C, D, E, F)) <> 0).
  { rewrite conic_S_mul. assert (0 < (- k) ^ 3) by (apply pow_lt; lra).
    apply Rmult_integral_contrapositive_currified; [| exact HS].
    replace (k ^ 3) with (- (- k) ^ 3) by ring. lra. }
  rewrite (gparams_from_conic_ellipse A B C D E F HT HS).
  cbn [conic_mul] in *.
  rewrite (gparams_from_conic_ellipse _ _ _ _ _ _ HT' HS').
  change (A * k, B * k, C * k, D * k, E * k, F * k)
    with (conic_mul k (A, B, C, D, E, F)).
  rewrite conic_T_mul, conic_S_mul.
  set (T := conic_T (A, B, C, D, E, F)) in *.
  set (S := conic_S (A, B, C, D, E, F)) in *.
  assert (HTnz : 4 * A * C - B ^ 2 <> 0).
  { subst T. cbn in HT.
    replace (4 * A * C - B ^ 2) with (4 * A * C - B * B) by ring. lra. }
  assert (HTnz' : 4 * (A * k) * (C * k) - (B * k) ^ 2 <> 0).
  { cbn in HT'.
    replace (4 * (A * k) * (C * k) - (B * k) ^ 2)
      with (4 * (A * k) * (C * k) - B * k * (B * k)) by ring. lra. }
  replace ((C * k - A * k) ^ 2 + 4 * (0.5 * (B * k)) ^ 2)
    with ((- k) ^ 2 * ((C - A) ^ 2 + 4 * (0.5 * B) ^ 2)) by ring.
  rewrite sqrt_scale_sq by (try lra; apply eigh_disc_nonneg).
  assert (Hqq : sqrt ((C - A) ^ 2 + 4 * (0.5 * B) ^ 2) *
                sqrt ((C - A) ^ 2 + 4 * (0.5 * B) ^ 2) =
                (C - A) ^ 2 + 4 * (0.5 * B) ^ 2)
    by (apply sqrt_sqrt, eigh_disc_nonneg).
  assert (Hq0 : 0 <= sqrt ((C - A) ^ 2 + 4 * (0.5 * B) ^ 2)) by apply sqrt_pos.
  set (q := sqrt ((C - A) ^ 2 + 4 * (0.5 * B) ^ 2)) in *.
  replace (- (2 * (0.5 * (B * k)))) with (- k * B) by (unfold_decimals; field).
  replace (C * k - A * k + - k * q) with (- k * (A - C + q)) by ring.
  rewrite atan2_scale by lra.
  do 6 eexists. split; [reflexivity |]. split.
  - tuple_eq; try reflexivity.
    + field. split; assumption.
    + field. split; assumption.
    + do 2 f_equal. unfold_decimals. field. repeat split; lra.
    + do 2 f_equal. unfold_decimals. field. repeat split; lra.
  - intros HB.
    assert (HB2 : 0 < B ^ 2) by (apply pow2_gt_0 || (simpl; nra)).
    apply (perpendicular_angles (C - A + q) (- (2 * (0.5 * B))) (A - C + q) B).
    + apply atan2_parallel.
    + apply atan2_parallel.
    + unfold_decimals. nra.
    + replace ((- (2 * (0.5 * B))) ^ 2) with (B ^ 2)
        by (unfold_decimals; field).
      pose proof (pow2_ge_0 (C - A + q)). lra.
    + pose proof (pow2_ge_0 (A - C + q)). lra.
Qed.

Lemma gparams_from_conic_mul_neg_example :
  -1 < 0 /\ 0 < conic_T (2, 1, 2, 0, 0, -1) /\
  conic_S (2, 1, 2, 0, 0, -1) <> 0 /\
  exists (x0 y0 : R) (a b : xreal) (theta theta' : R),
    gparams_from_conic (2, 1, 2, 0, 0, -1) =
    Some (Fin x0, Fin y0, a, b, Fin theta) /\
    gparams_from_conic (conic_mul (-1) (2, 1, 2, 0, 0, -1)) =
    Some (Fin x0, Fin y0, b, a, Fin theta') /\
    (1 <> 0 -> cong_mod_pi theta' (theta + PI / 2)).
Proof.
  assert (HT : 0 < conic_T (2, 1, 2, 0, 0, -1)) by (cbn; lra).
  assert (HS : conic_S (2, 1, 2, 0, 0, -1) <> 0) by (cbn; lra).
  split; [lra |]. split; [exact HT |]. split; [exact HS |].
  apply gparams_from_conic_mul_neg; [lra | exact HT | exact HS].
Defined.

(** ** Normalizing a conic by its scale *)

Lemma conic_div_mul (c : conic) (k : R) :
  k <> 0 -> conic_div c k = conic_mul (/ k) c.
Proof.
  intros Hk. destruct c as [[[[[A B] C] D] E] F]. cbn.
  tuple_eq; field; exact Hk.
Qed.

(** X7. In exact real arithmetic: dividing an ellipse's conic (T > 0, S <> 0)
    by the scale k that [conic_scale] returns for it gives a conic in
    canonical scale: on the quotient [conic_scale] returns k = 1, and for ab
    the absolute value of the ab of the conic. *)
Theorem conic_scale_normalized (c : conic) :
  0 < conic_T c -> conic_S c <> 0 ->
  exists k0 ab0 : R,
    conic_scale c = (Fin k0, Fin ab0) /\
    conic_scale (conic_div c k0) = (Fin 1, Fin (Rabs ab0)).
Proof.
  intros HT HS.
  pose proof (conic_k_nonzero c HT HS) as Hk.
  exists (0.25 * conic_T c ^ 2 / conic_S c),
         (2.0 * conic_S c / (conic_T c * sqrt (conic_T c))).
  split; [apply conic_scale_ellipse; assumption |].
  rewrite conic_div_mul by exact Hk.
  rewrite conic_scale_mul by (try assumption; apply Rinv_neq_0_compat, Hk).
  set (T := conic_T c) in *. set (S := conic_S c) in *.
  assert (Hr : 0 < sqrt T) by (apply sqrt_lt_R0; exact HT).
  set (r := sqrt T) in *.
  assert (HT2 : 0 < T ^ 2) by (apply pow_lt; exact HT).
  assert (Hden : 0 < T * r) by (apply Rmult_lt_0_compat; assumption).
  tuple_eq.
  - field; repeat split; try lra; try assumption; unfold_decimals; nra.
  - destruct (Rlt_dec 0 S) as [HSpos | HSneg].
    + assert (Hk0 : 0 < 0.25 * T ^ 2 / S).
      { unfold Rdiv. apply Rmult_lt_0_compat; [unfold_decimals; lra |].
        apply Rinv_0_lt_compat. exact HSpos. }
      assert (Hab : 0 < 2.0 * S / (T * r)).
      { unfold Rdiv. apply Rmult_lt_0_compat; [unfold_decimals; lra |].
        apply Rinv_0_lt_compat. exact Hden. }
      assert (Hik : 0 < / (0.25 * T ^ 2 / S)) by (apply Rinv_0_lt_compat; exact Hk0).
      rewrite (Rabs_pos_eq (/ (0.25 * T ^ 2 / S))) by lra.
      rewrite (Rabs_pos_eq (2.0 * S / (T * r))) by lra.
      field; repeat split; try lra; unfold_decimals; nra.
    + assert (HSlt : S < 0) by lra.
      assert (Hk0 : 0.25 * T ^ 2 / S < 0).
      { unfold Rdiv. replace (0.25 * T ^ 2 * / S) with (- (0.25 * T ^ 2 * / - S))
          by (field; lra).
        assert (0 < 0.25 * T ^ 2 * / - S).
        { apply Rmult_lt_0_compat; [unfold_decimals; lra |].
          apply Rinv_0_lt_compat. lra. }
        lra. }
      assert (Hab : 2.0 * S / (T * r) < 0).
      { unfold Rdiv. assert (0 < / (T * r)) by (apply Rinv_0_lt_compat; exact Hden).
        unfold_decimals. nra. }
      assert (Hik : / (0.25 * T ^ 2 / S) < 0) by (apply Rinv_lt_0_compat; exact Hk0).
      rewrite (Rabs_left (/ (0.25 * T ^ 2 / S))) by lra.
      rewrite (Rabs_left (2.0 * S / (T * r))) by lra.
      field; repeat split; try lra; unfold_decimals; nra.
Qed.

(** The negated unit circle: k0 = -1, and the quotient is the unit circle. *)
Lemma conic_scale_normalized_example :
  0 < conic_T (-1, 0, -1, 0, 0, 1) /\ conic_S (-1, 0, -1, 0, 0, 1) <> 0 /\
  exists k0 ab0 : R,
    conic_scale (-1, 0, -1, 0, 0, 1) = (Fin k0, Fin ab0) /\
    conic_scale (conic_div (-1, 0, -1, 0, 0, 1) k0) = (Fin 1, Fin (Rabs ab0)).
Proof.
  assert (HT : 0 < conic_T (-1, 0, -1, 0, 0, 1)) by (cbn; lra).
  assert (HS : conic_S (-1, 0, -1, 0, 0, 1) <> 0) by (cbn; lra).
  split; [exact HT |]. split; [exact HS |].
  apply conic_scale_normalized; assumption.
Defined.

(** ** More on the eigensolver *)

(** X8. In exact real arithmetic: on real inputs the two eigenvalues that
    [eigh_2x2] returns add up to the trace x + z and multiply to the
    determinant x*z - y^2 of [[x,y],[y,z]], and the two columns it returns are
    orthogonal. *)
Theorem eigh_2x2_trace_det (x y z : R) :
  exists w0 w1 v00 v01 v10 v11 : R,
    eigh_2x2 (Fin x) (Fin y) (Fin z) =
    ((Fin w0, Fin w1), ((Fin v00, Fin v01), (Fin v10, Fin v11))) /\
    w0 + w1 = x + z /\
    w0 * w1 = x * z - y ^ 2 /\
    v00 * v01 + v10 * v11 = 0.
Proof.
  pose proof (eigh_2x2_fin x y z) as H. cbv zeta in H.
  assert (Hqq : sqrt ((z - x) ^ 2 + 4 * y ^ 2) * sqrt ((z - x) ^ 2 + 4 * y ^ 2) =
                (z - x) ^ 2 + 4 * y ^ 2) by (apply sqrt_sqrt, eigh_disc_nonneg).
  set (q := sqrt ((z - x) ^ 2 + 4 * y ^ 2)) in *.
  do 6 eexists. split; [exact H |].
  repeat split; unfold_decimals; nra.
Qed.

(** X9. In exact real arithmetic: on real inputs, the column that [eigh_2x2]
    returns for the larger eigenvalue is the zero vector exactly when y = 0
    and z <= x, and the column for the smaller eigenvalue exactly when y = 0
    and x <= z: on a diagonal matrix one of the two columns is not an
    eigenvector, and on a multiple of the identity neither is. *)
Theorem eigh_2x2_zero_column (x y z : R) :
  exists w0 w1 v00 v01 v10 v11 : R,
    eigh_2x2 (Fin x) (Fin y) (Fin z) =
    ((Fin w0, Fin w1), ((Fin v00, Fin v01), (Fin v10, Fin v11))) /\
    ((v01 = 0 /\ v11 = 0) <-> (y = 0 /\ z <= x)) /\
    ((v00 = 0 /\ v10 = 0) <-> (y = 0 /\ x <= z)).
Proof.
  pose proof (eigh_2x2_fin x y z) as H. cbv zeta in H.
  assert (Hqq : sqrt ((z - x) ^ 2 + 4 * y ^ 2) * sqrt ((z - x) ^ 2 + 4 * y ^ 2) =
                (z - x) ^ 2 + 4 * y ^ 2) by (apply sqrt_sqrt, eigh_disc_nonneg).
  assert (Hq0 : 0 <= sqrt ((z - x) ^ 2 + 4 * y ^ 2)) by apply sqrt_pos.
  set (q := sqrt ((z - x) ^ 2 + 4 * y ^ 2)) in *.
  do 6 eexists. split; [exact H |].
  split; split.
  - intros [Hy Hv]. split; lra.
  - intros [Hy Hzx]. subst y. split; [lra |].
    assert (Hq : q * q = (x - z) * (x - z)) by (rewrite Hqq; ring).
    assert (q = x - z) by nra. lra.
  - intros [Hy Hv]. split; lra.
  - intros [Hy Hzx]. subst y. split; [lra |].
    assert (Hq : q * q = (z - x) * (z - x)) by (rewrite Hqq; ring).
    assert (q = z - x) by nra. lra.
Qed.

(** ** Composing homographies *)

Lemma inv3_of_inverse (H G : mat3) :
  mmul G H = I3 -> mmul H G = I3 -> inv3 H = Some G.
Proof.
  intros HGH HHG.
  assert (Hd : det3 H <> 0) by (apply invertible_det; exists G; split; assumption).
  destruct (inv3_correct H Hd) as (G' & HG' & HG'H & _).
  rewrite HG'. f_equal. apply (inverse_unique H); assumption.
Qed.

Lemma mmul_inverse_product (H1 H2 G1 G2 : mat3) :
  mmul G1 H1 = I3 -> mmul H1 G1 = I3 ->
  mmul G2 H2 = I3 -> mmul H2 G2 = I3 ->
  mmul (mmul G1 G2) (mmul H2 H1) = I3 /\ mmul (mmul H2 H1) (mmul G1 G2) = I3.
Proof.
  intros A1 B1 A2 B2. split.
  - rewrite mmul_assoc, <- (mmul_assoc G2 H2 H1), A2, mmul_I3_l. exact A1.
  - rewrite mmul_assoc, <- (mmul_assoc H1 G1 G2), B1, mmul_I3_l. exact B2.
Qed.

(** Transforming by G1 and then by G2 is transforming by their product. *)
Lemma matrix_conic_compose (c : conic) (G1 G2 : mat3) :
  matrix_conic
    (mmul (transpose G2)
          (mmul (conic_matrix
                   (matrix_conic (mmul (transpose G1) (mmul (conic_matrix c) G1))))
                G2)) =
  matrix_conic (mmul (transpose (mmul G1 G2)) (mmul (conic_matrix c) (mmul G1 G2))).
Proof.
  destruct c as [[[[[A B] C] D] E] F]. destruct_mat G1. destruct_mat G2.
  cbn. tuple_eq; field.
Qed.

Lemma matrix_conic_I3 (c : conic) :
  matrix_conic (mmul (transpose I3) (mmul (conic_matrix c) I3)) = c.
Proof.
  destruct c as [[[[[A B] C] D] E] F]. cbn. tuple_eq; field.
Qed.

(** X10. In exact real arithmetic: for invertible H1 and H2, transforming a
    conic through H1 and the result through H2 gives the conic that
    [conic_transform] returns for the product H2 H1. *)
Theorem conic_transform_compose (c : conic) (H1 H2 : mat3) :
  invertible H1 -> invertible H2 ->
  exists c1 c2,
    conic_transform c H1 = Some c1 /\
    conic_transform c1 H2 = Some c2 /\
    conic_transform c (mmul H2 H1) = Some c2.
Proof.
  intros (G1 & A1 & B1) (G2 & A2 & B2).
  destruct (mmul_inverse_product H1 H2 G1 G2 A1 B1 A2 B2) as [A12 B12].
  pose proof (inv3_of_inverse H1 G1 A1 B1) as I1.
  pose proof (inv3_of_inverse H2 G2 A2 B2) as I2.
  pose proof (inv3_of_inverse _ _ A12 B12) as I12.
  do 2 eexists.
  split; [apply conic_transform_spec; exact I1 |].
  split; [apply conic_transform_spec; exact I2 |].
  rewrite (conic_transform_spec c _ _ I12). f_equal.
  symmetry. apply matrix_conic_compose.
Qed.

(** X11. In exact real arithmetic: transforming a conic through an invertible
    H and the result through the inverse of H gives the conic back, and the
    identity matrix leaves every conic unchanged. *)
Theorem conic_transform_inverse (c : conic) (H G : mat3) :
  mmul G H = I3 -> mmul H G = I3 ->
  conic_transform c I3 = Some c /\
  exists c1, conic_transform c H = Some c1 /\ conic_transform c1 G = Some c.
Proof.
  intros HGH HHG.
  assert (II : inv3 I3 = Some I3).
  { apply inv3_of_inverse; apply mmul_I3_l. }
  split.
  - rewrite (conic_transform_spec c _ _ II). f_equal. apply matrix_conic_I3.
  - pose proof (inv3_of_inverse H G HGH HHG) as IH.
    pose proof (inv3_of_inverse G H HHG HGH) as IG.
    eexists. split; [apply conic_transform_spec; exact IH |].
    rewrite (conic_transform_spec _ _ _ IG). f_equal.
    rewrite matrix_conic_compose, HGH. apply matrix_conic_I3.
Qed.

(** The homography and the translation of the module's self-test. *)
Lemma conic_transform_compose_example :
  let H1 : mat3 := ((1, -0.2, 0), (0, 0.7, 0), (0.001, 0.0015, 1)) in
  let H2 : mat3 := ((1, 0, 400), (0, 1, 300), (0, 0, 1)) in
  let c : conic := (1, 0, 1, 0, 0, -1) in
  invertible H1 /\ invertible H2 /\
  exists c1 c2,
    conic_transform c H1 = Some c1 /\
    conic_transform c1 H2 = Some c2 /\
    conic_transform c (mmul H2 H1) = Some c2.
Proof.
  intros H1 H2 c.
  assert (I1 : invertible H1) by (apply invertible_det; cbn; lra).
  assert (I2 : invertible H2) by (apply invertible_det; cbn; lra).
  split; [exact I1 |]. split; [exact I2 |].
  exact (conic_transform_compose c H1 H2 I1 I2).
Defined.

(** The translation of the module's self-test and its inverse. *)
Lemma conic_transform_inverse_example :
  let H : mat3 := ((1, 0, 400), (0, 1, 300), (0, 0, 1)) in
  let G : mat3 := ((1, 0, -400), (0, 1, -300), (0, 0, 1)) in
  let c : conic := (1, 0, 1, 0, 0, -1) in
  mmul G H = I3 /\ mmul H G = I3 /\
  conic_transform c I3 = Some c /\
  exists c1, conic_transform c H = Some c1 /\ conic_transform c1 G = Some c.
Proof.
  intros H G c.
  assert (HGH : mmul G H = I3) by (cbn; unfold I3; vec_eq; lra).
  assert (HHG : mmul H G = I3) by (cbn; unfold I3; vec_eq; lra).
  split; [exact HGH |]. split; [exact HHG |].
  exact (conic_transform_inverse c H G HGH HHG).
Defined.

(** ** Multiples of a homography *)

Lemma mmul_mscale (k : R) (G H : mat3) :
  k <> 0 -> mmul G H = I3 -> mmul (mscale (/ k) G) (mscale k H) = I3.
Proof.
  intros Hk HGH. destruct_mat G. destruct_mat H.
  cbn in *. unfold I3 in *.
  injection HGH as E1 E2 E3 E4 E5 E6 E7 E8 E9.
  vec_eq.
  all: match goal with
       | |- ?L = ?r =>
           match goal with
           | Hx : ?L' = r |- _ =>
               replace L with L' by (field; exact Hk); exact Hx
           end
       end.
Qed.

Lemma matrix_conic_mscale (c : conic) (k : R) (G : mat3) :
  k <> 0 ->
  matrix_conic (mmul (transpose (mscale (/ k) G))
                     (mmul (conic_matrix c) (mscale (/ k) G))) =
  conic_div (matrix_conic (mmul (transpose G) (mmul (conic_matrix c) G))) (k ^ 2).
Proof.
  intros Hk. destruct c as [[[[[A B] C] D] E] F]. destruct_mat G.
  cbn. tuple_eq; field; exact Hk.
Qed.

(** X12. In exact real arithmetic: a homography is defined up to scale: for an
    invertible H and k <> 0, [conic_transform c (k H)] is [conic_transform c
    H] divided by k^2, a positive multiple of it. *)
Theorem conic_transform_mscale (c : conic) (k : R) (H : mat3) :
  k <> 0 -> invertible H ->
  exists c',
    conic_transform c H = Some c' /\
    conic_transform c (mscale k H) = Some (conic_div c' (k ^ 2)).
Proof.
  intros Hk (G & HGH & HHG).
  pose proof (inv3_of_inverse H G HGH HHG) as IH.
  assert (IkH : inv3 (mscale k H) = Some (mscale (/ k) G)).
  { apply inv3_of_inverse.
    - apply mmul_mscale; assumption.
    - rewrite <- (Rinv_inv k) at 1.
      apply mmul_mscale; [apply Rinv_neq_0_compat; exact Hk | exact HHG]. }
  eexists. split; [apply conic_transform_spec; exact IH |].
  rewrite (conic_transform_spec c _ _ IkH). f_equal.
  apply matrix_conic_mscale. exact Hk.
Qed.

Lemma conic_transform_mscale_example :
  let H : mat3 := ((1, -0.2, 0), (0, 0.7, 0), (0.001, 0.0015, 1)) in
  let c : conic := (1, 0, 1, 0, 0, -1) in
  2 <> 0 /\ invertible H /\
  exists c',
    conic_transform c H = Some c' /\
    conic_transform c (mscale 2 H) = Some (conic_div c' (2 ^ 2)).
Proof.
  intros H c.
  assert (IH : invertible H) by (apply invertible_det; cbn; lra).
  assert (H2 : 2 <> 0) by lra.
  split; [exact H2 |]. split; [exact IH |].
  exact (conic_transform_mscale c 2 H H2 IH).
Defined.

(** ** The start vertex of a polygon *)

(** [moments_from_contour] only reads the six accumulators. *)
Lemma moments_from_contour_sums (l l' : list (R * R)) (s s' : contour_acc) :
  contour_sums l = Some s -> contour_sums l' = Some s' ->
  a00 s = a00 s' -> a10 s = a10 s' -> a01 s = a01 s' ->
  a20 s = a20 s' -> a11 s = a11 s' -> a02 s = a02 s' ->
  moments_from_contour l = moments_from_contour l'.
Proof.
  intros Hs Hs' H00 H10 H01 H20 H11 H02.
  unfold moments_from_contour. rewrite Hs, Hs'.
  rewrite H00, H10, H01, H20, H11, H02. reflexivity.
Qed.

Lemma psum_rotate (w : R * R -> R * R -> R) (p : R * R) (t : list (R * R)) :
  (forall a b, w a b = - w b a) ->
  forall d,
  psum w (last (t ++ [p]) d :: t ++ [p]) = psum w (last (p :: t) d :: p :: t).
Proof.
  intros Hw d. rewrite last_last.
  change (p :: t ++ [p]) with ((p :: t) ++ [p]).
  rewrite (psum_snoc w Hw).
  rewrite (last_default (p :: t) p d) by discriminate.
  set (z := last (p :: t) d).
  change (psum w (z :: p :: t)) with (w z p + psum w (p :: t)). lra.
Qed.

(** X13. In exact real arithmetic: the moments of a closed polygon do not
    depend on the vertex the point sequence starts from: moving the first
    point to the end of the sequence leaves the result of
    [moments_from_contour] unchanged. *)
Theorem moments_from_contour_rotate (p : R * R) (t : list (R * R)) :
  moments_from_contour (t ++ [p]) = moments_from_contour (p :: t).
Proof.
  assert (Hne : t ++ [p] <> []).
  { intros H. apply app_eq_nil in H. destruct H; discriminate. }
  destruct (contour_sums_nonempty (t ++ [p]) Hne) as [s Hs].
  destruct (contour_sums_nonempty (p :: t) ltac:(discriminate)) as [s' Hs'].
  destruct (contour_sums_closed _ _ Hs (0, 0)) as (H00 & H10 & H01 & H20 & H11 & H02).
  destruct (contour_sums_closed _ _ Hs' (0, 0))
    as (H00' & H10' & H01' & H20' & H11' & H02').
  apply (moments_from_contour_sums _ _ s s' Hs Hs').
  - rewrite H00, H00'. apply psum_rotate, w00_antisym.
  - rewrite H10, H10'. apply psum_rotate, w10_antisym.
  - rewrite H01, H01'. apply psum_rotate, w01_antisym.
  - rewrite H20, H20'. apply psum_rotate, w20_antisym.
  - rewrite H11, H11'. apply psum_rotate, w11_antisym.
  - rewrite H02, H02'. apply psum_rotate, w02_antisym.
Qed.

(** ** Polygons without area *)

Lemma inf_signed_not_finite (r : R) : is_finite (inf_signed r) = false.
Proof.
  unfold inf_signed. destruct (Rlt_dec 0 r); [reflexivity |].
  destruct (Rlt_dec r 0); reflexivity.
Qed.

Lemma xmul_fin_not_finite (r : R) (y : xreal) :
  is_finite y = false -> is_finite (Fin r * y)%X = false.
Proof.
  destruct y; cbn; try discriminate; intros _;
    try apply inf_signed_not_finite; reflexivity.
Qed.

Lemma xsub_fin_not_finite (r : R) (y : xreal) :
  is_finite y = false -> is_finite (Fin r - y)%X = false.
Proof.
  destruct y; cbn; try discriminate; reflexivity.
Qed.

(** X14. In exact real arithmetic: on a nonempty polygon whose accumulated raw
    area a00 is zero, [moments_from_contour] does not fail: it returns m00 =
    0, and none of the three central moments is a finite number. *)
Theorem moments_from_contour_zero_area (xypoints : list (R * R))
        (s : contour_acc) :
  contour_sums xypoints = Some s -> a00 s = 0 ->
  exists (m00 m10 m01 : R) (mu20 mu11 mu02 : xreal),
    moments_from_contour xypoints =
    Some (Fin m00, Fin m10, Fin m01, mu20, mu11, mu02) /\
    m00 = 0 /\
    is_finite mu20 = false /\ is_finite mu11 = false /\ is_finite mu02 = false.
Proof.
  intros Hs H0.
  unfold moments_from_contour. rewrite Hs, H0.
  destruct (Rlt_dec 0 0) as [H | _]; [lra |].
  do 6 eexists. split; [reflexivity |].
  split; [lra |].
  assert (Hinv : (Fin 1 / Fin (0 * -0.5))%X = PInf).
  { unfold xdiv. destruct (Req_dec_T (0 * -0.5) 0) as [_ | H]; [| lra].
    unfold inf_signed. destruct (Rlt_dec 0 1); [reflexivity | lra]. }
  rewrite Hinv.
  repeat split; apply xsub_fin_not_finite, xmul_fin_not_finite,
    xmul_fin_not_finite; reflexivity.
Qed.

(** A polygon of two points. *)
Lemma moments_from_contour_zero_area_segment :
  exists s,
    contour_sums [(0, 0); (1, 2)] = Some s /\ a00 s = 0 /\
    exists (m00 m10 m01 : R) (mu20 mu11 mu02 : xreal),
      moments_from_contour [(0, 0); (1, 2)] =
      Some (Fin m00, Fin m10, Fin m01, mu20, mu11, mu02) /\
      m00 = 0 /\
      is_finite mu20 = false /\ is_finite mu11 = false /\
      is_finite mu02 = false.
Proof.
  eexists. split; [reflexivity |].
  assert (H0 : a00 (fold_left contour_step [(0, 0); (1, 2)]
                      (mk_acc 0 0 0 0 0 0 1 2)) = 0) by (cbn; lra).
  split; [exact H0 |].
  exact (moments_from_contour_zero_area [(0, 0); (1, 2)] _ eq_refl H0).
Defined.

(** ** Images of the points of a conic *)

Lemma xdiv_fin_inv (a b r : R) : (Fin a / Fin b)%X = Fin r -> b <> 0 /\ r = a / b.
Proof.
  unfold xdiv. destruct (Req_dec_T b 0) as [Hb | Hb].
  - intros H. pose proof (inf_signed_not_finite a) as Hn.
    rewrite H in Hn. discriminate Hn.
  - intros H. injection H as <-. split; [exact Hb | reflexivity].
Qed.

(** X15. In exact real arithmetic: for an invertible H, every point of a conic
    c that [_perspective_transform] maps to a point with finite coordinates is
    mapped onto the conic that [conic_transform c H] returns. *)
Theorem perspective_transform_on_conic (c : conic) (H : mat3)
        (pts : list (R * R)) :
  invertible H ->
  Forall (fun xy => conic_eval c (fst xy) (snd xy) = 0) pts ->
  exists c',
    conic_transform c H = Some c' /\
    Forall (fun XY => forall u v : R,
                fst XY = Fin u -> snd XY = Fin v -> conic_eval c' u v = 0)
           (perspective_transform pts H).
Proof.
  intros Hinv Hpts. apply invertible_det in Hinv.
  destruct (inv3_correct H Hinv) as (G & HG & HGH & HHG).
  eexists. split; [apply conic_transform_spec; exact HG |].
  unfold perspective_transform.
  induction Hpts as [| [x y] pts Hxy _ IH]; cbn [map]; constructor;
    [| exact IH].
  cbn [fst snd] in Hxy.
  destruct (mapply H (x, y, 1)) as [[u0 v0] w0] eqn:Huvw.
  cbn [fst snd]. intros u v Hu Hv.
  apply xdiv_fin_inv in Hu. apply xdiv_fin_inv in Hv.
  destruct Hu as [Hw ->]. destruct Hv as [_ ->].
  rewrite conic_form_homogeneous by exact Hw.
  rewrite <- Huvw, conic_form_congruence, mapply_mmul, HGH, mapply_I3,
    conic_form_affine, Hxy.
  field. exact Hw.
Qed.

(** Two points of the unit circle through the homography of the module's
    self-test. *)
Lemma perspective_transform_on_conic_example :
  let H : mat3 := ((1, -0.2, 0), (0, 0.7, 0), (0.001, 0.0015, 1)) in
  let c : conic := (1, 0, 1, 0, 0, -1) in
  let pts := [(1, 0); (0, 1)] in
  invertible H /\
  Forall (fun xy => conic_eval c (fst xy) (snd xy) = 0) pts /\
  exists c',
    conic_transform c H = Some c' /\
    Forall (fun XY => forall u v : R,
                fst XY = Fin u -> snd XY = Fin v -> conic_eval c' u v = 0)
           (perspective_transform pts H).
Proof.
  intros H c pts.
  assert (IH : invertible H) by (apply invertible_det; cbn; lra).
  assert (Hpts : Forall (fun xy => conic_eval c (fst xy) (snd xy) = 0) pts).
  { repeat constructor; cbn; lra. }
  split; [exact IH |]. split; [exact Hpts |].
  exact (perspective_transform_on_conic c H pts IH Hpts).
Defined.

(** ** The center and the axes that [gparams_from_conic] returns *)

(** X16. In exact real arithmetic: on an ellipse's conic (T > 0, S <> 0) the
    center that [gparams_from_conic] returns is the center of symmetry of the
    curve: the implicit equation takes the same value at two points opposite
    to each other across it. *)
Theorem gparams_from_conic_center (c : conic) :
  0 < conic_T c -> conic_S c <> 0 ->
  exists (x0 y0 : R) (a b theta : xreal),
    gparams_from_conic c = Some (Fin x0, Fin y0, a, b, theta) /\
    forall dx dy,
      conic_eval c (x0 + dx) (y0 + dy) = conic_eval c (x0 - dx) (y0 - dy).
Proof.
  intros HT HS. destruct c as [[[[[A B] C] D] E] F].
  rewrite (gparams_from_conic_ellipse A B C D E F HT HS).
  do 5 eexists. split; [reflexivity |].
  intros dx dy. cbn in HT |- *.
  field. lra.
Qed.

Lemma gparams_from_conic_center_example :
  0 < conic_T (2, 1, 2, -4, 2, -1) /\ conic_S (2, 1, 2, -4, 2, -1) <> 0 /\
  exists (x0 y0 : R) (a b theta : xreal),
    gparams_from_conic (2, 1, 2, -4, 2, -1) =
    Some (Fin x0, Fin y0, a, b, theta) /\
    forall dx dy,
      conic_eval (2, 1, 2, -4, 2, -1) (x0 + dx) (y0 + dy) =
      conic_eval (2, 1, 2, -4, 2, -1) (x0 - dx) (y0 - dy).
Proof.
  assert (HT : 0 < conic_T (2, 1, 2, -4, 2, -1)) by (cbn; lra).
  assert (HS : conic_S (2, 1, 2, -4, 2, -1) <> 0) by (cbn; lra).
  split; [exact HT |]. split; [exact HS |].
  exact (gparams_from_conic_center _ HT HS).
Defined.

(** The eigenvalues of the quadratic part of an ellipse's conic have the
    sign of A. *)
Lemma ellipse_eigen_sign (A B C : R) :
  0 < 4 * A * C - B * B ->
  let q := sqrt ((C - A) ^ 2 + 4 * (0.5 * B) ^ 2) in
  0 <= q /\ q * q = (C - A) ^ 2 + B ^ 2 /\
  (0 < A -> 0 < C + A - q) /\ (A < 0 -> C + A + q < 0).
Proof.
  intros HT q.
  assert (Hq0 : 0 <= q) by apply sqrt_pos.
  assert (Hqq : q * q = (C - A) ^ 2 + B ^ 2).
  { unfold q. rewrite sqrt_sqrt by apply eigh_disc_nonneg.
    unfold_decimals. field. }
  split; [exact Hq0 |]. split; [exact Hqq |].
  split; intros HA.
  - assert (0 < C) by nra. nra.
  - assert (C < 0) by nra. nra.
Qed.

(** X17. In exact real arithmetic: on the conic of a real ellipse with
    positive scale (T > 0, S > 0, A > 0), [gparams_from_conic] returns finite
    semi-axes with a >= b > 0 whose product is the value ab that [conic_scale]
    returns. *)
Theorem gparams_from_conic_axes (A B C D E F : R) :
  0 < conic_T (A, B, C, D, E, F) -> 0 < conic_S (A, B, C, D, E, F) -> 0 < A ->
  exists x0 y0 a b theta ab0 : R,
    gparams_from_conic (A, B, C, D, E, F) =
    Some (Fin x0, Fin y0, Fin a, Fin b, Fin theta) /\
    snd (conic_scale (A, B, C, D, E, F)) = Fin ab0 /\
    0 < b /\ b <= a /\ a * b = ab0.
Proof.
  intros HT HS HA.
  assert (HSnz : conic_S (A, B, C, D, E, F) <> 0) by lra.
  rewrite (gparams_from_conic_ellipse A B C D E F HT HSnz).
  rewrite (conic_scale_ellipse _ HT HSnz). cbn [snd].
  destruct (ellipse_eigen_sign A B C) as (Hq0 & Hqq & Hpos & _);
    [exact HT |].
  specialize (Hpos HA).
  set (T := conic_T (A, B, C, D, E, F)) in *.
  set (S := conic_S (A, B, C, D, E, F)) in *.
  set (q := sqrt ((C - A) ^ 2 + 4 * (0.5 * B) ^ 2)) in *.
  assert (HTq : T = (C + A) ^ 2 - q * q).
  { rewrite Hqq. unfold T. cbn. ring. }
  assert (Hr : 0 < sqrt T) by (apply sqrt_lt_R0; exact HT).
  assert (Hrr : sqrt T * sqrt T = T) by (apply sqrt_sqrt; lra).
  set (r := sqrt T) in *.
  assert (Hk : 0 < 0.25 * T ^ 2 / S).
  { unfold Rdiv. apply Rmult_lt_0_compat.
    - assert (0 < T ^ 2) by (apply pow_lt; exact HT). unfold_decimals. lra.
    - apply Rinv_0_lt_compat. exact HS. }
  set (k := 0.25 * T ^ 2 / S) in *.
  assert (HW0 : 0 < 0.5 * (C + A - q) / k).
  { unfold Rdiv. apply Rmult_lt_0_compat; [unfold_decimals; lra |].
    apply Rinv_0_lt_compat. exact Hk. }
  assert (HW01 : 0.5 * (C + A - q) / k <= 0.5 * (C + A + q) / k).
  { unfold Rdiv. apply Rmult_le_compat_r.
    - left. apply Rinv_0_lt_compat. exact Hk.
    - unfold_decimals. lra. }
  rewrite !xsqrt_fin by lra.
  do 6 eexists. split; [reflexivity |]. split; [reflexivity |].
  split; [apply sqrt_lt_R0; exact HW0 |].
  split; [apply sqrt_le_1_alt; exact HW01 |].
  rewrite <- sqrt_mult_alt by lra.
  apply sqrt_lem_1.
  - apply Rmult_le_pos; lra.
  - left. unfold Rdiv. apply Rmult_lt_0_compat; [unfold_decimals; lra |].
    apply Rinv_0_lt_compat, Rmult_lt_0_compat; assumption.
  - replace (0.5 * (C + A + q) / k * (0.5 * (C + A - q) / k))
      with (0.25 * ((C + A) ^ 2 - q * q) / (k * k))
      by (unfold_decimals; field; lra).
    rewrite <- HTq. unfold k.
    replace (T ^ 2) with (r * r * (r * r)) by (rewrite Hrr; ring).
    replace T with (r * r) by exact Hrr.
    unfold_decimals. field. split; lra.
Qed.

Lemma gparams_from_conic_axes_example :
  0 < conic_T (2, 1, 2, 0, 0, -1) /\ 0 < conic_S (2, 1, 2, 0, 0, -1) /\
  0 < 2 /\
  exists x0 y0 a b theta ab0 : R,
    gparams_from_conic (2, 1, 2, 0, 0, -1) =
    Some (Fin x0, Fin y0, Fin a, Fin b, Fin theta) /\
    snd (conic_scale (2, 1, 2, 0, 0, -1)) = Fin ab0 /\
    0 < b /\ b <= a /\ a * b = ab0.
Proof.
  assert (HT : 0 < conic_T (2, 1, 2, 0, 0, -1)) by (cbn; lra).
  assert (HS : 0 < conic_S (2, 1, 2, 0, 0, -1)) by (cbn; lra).
  assert (HA : 0 < 2) by lra.
  split; [exact HT |]. split; [exact HS |]. split; [exact HA |].
  exact (gparams_from_conic_axes 2 1 2 0 0 (-1) HT HS HA).
Defined.

Lemma xsqrt_neg (r : R) : r < 0 -> xsqrt (Fin r) = NaN.
Proof.
  intros Hr. unfold xsqrt. destruct (Rlt_dec r 0); [reflexivity | lra].
Qed.

(** ** Conics without real points *)

(** X18. In exact real arithmetic: a conic with T > 0 and A*S < 0 has no real
    point, yet [gparams_from_conic] does not return the sentinel for it: it
    returns a tuple whose two semi-axes are NaN. *)
Theorem gparams_from_conic_imaginary (A B C D E F : R) :
  0 < conic_T (A, B, C, D, E, F) -> A * conic_S (A, B, C, D, E, F) < 0 ->
  (exists x0 y0 theta : R,
     gparams_from_conic (A, B, C, D, E, F) =
     Some (Fin x0, Fin y0, NaN, NaN, Fin theta)) /\
  forall x y, conic_eval (A, B, C, D, E, F) x y <> 0.
Proof.
  intros HT HAS.
  assert (HSnz : conic_S (A, B, C, D, E, F) <> 0).
  { intros H0. rewrite H0 in HAS. lra. }
  split.
  - rewrite (gparams_from_conic_ellipse A B C D E F HT HSnz).
    destruct (ellipse_eigen_sign A B C) as (Hq0 & Hqq & Hpos & Hneg);
      [exact HT |].
    set (T := conic_T (A, B, C, D, E, F)) in *.
    set (S := conic_S (A, B, C, D, E, F)) in *.
    set (q := sqrt ((C - A) ^ 2 + 4 * (0.5 * B) ^ 2)) in *.
    assert (HT2 : 0 < 0.25 * T ^ 2).
    { assert (0 < T ^ 2) by (apply pow_lt; exact HT). unfold_decimals. lra. }
    set (n := 0.25 * T ^ 2) in *.
    assert (HW : forall e, 0 < A * e -> 0.5 * e / (n / S) < 0).
    { intros e He.
      replace (0.5 * e / (n / S)) with (0.5 * (e * S) * / n)
        by (unfold_decimals; field; split; [exact HSnz | lra]).
      assert (Hin : 0 < / n) by (apply Rinv_0_lt_compat; exact HT2).
      assert (HeS : e * S < 0).
      { destruct (Rlt_dec 0 A) as [HA | HA].
        - assert (0 < e) by nra. assert (S < 0) by nra. nra.
        - assert (HA' : A < 0) by nra.
          assert (e < 0) by nra. assert (0 < S) by nra. nra. }
      unfold_decimals. nra. }
    rewrite !xsqrt_neg.
    + do 3 eexists. reflexivity.
    + apply HW. destruct (Rlt_dec 0 A) as [HA | HA].
      * specialize (Hpos HA). nra.
      * assert (HA' : A < 0) by nra. specialize (Hneg HA'). nra.
    + apply HW. destruct (Rlt_dec 0 A) as [HA | HA].
      * specialize (Hpos HA). nra.
      * assert (HA' : A < 0) by nra. specialize (Hneg HA'). nra.
  - intros x y Hf. cbn in HT, HAS, Hf.
    assert (Hid : 4 * A * (4 * A * C - B * B) *
                  (A * (x * (x * 1)) + B * x * y + C * (y * (y * 1)) +
                   D * x + E * y + F) =
                  (4 * A * C - B * B) * (2 * A * x + B * y + D) ^ 2 +
                  ((4 * A * C - B * B) * y + (2 * A * E - B * D)) ^ 2 -
                  4 * A * (A * (E * (E * 1)) + B * (B * 1) * F +
                           C * (D * (D * 1)) - B * D * E - 4 * A * C * F))
      by ring.
    rewrite Hf, Rmult_0_r in Hid.
    pose proof (pow2_ge_0 (2 * A * x + B * y + D)).
    pose proof (pow2_ge_0 ((4 * A * C - B * B) * y + (2 * A * E - B * D))).
    nra.
Qed.

(** The curve x^2 + y^2 + 1 = 0. *)
Lemma gparams_from_conic_imaginary_example :
  0 < conic_T (1, 0, 1, 0, 0, 1) /\ 1 * conic_S (1, 0, 1, 0, 0, 1) < 0 /\
  (exists x0 y0 theta : R,
     gparams_from_conic (1, 0, 1, 0, 0, 1) =
     Some (Fin x0, Fin y0, NaN, NaN, Fin theta)) /\
  forall x y, conic_eval (1, 0, 1, 0, 0, 1) x y <> 0.
Proof.
  assert (HT : 0 < conic_T (1, 0, 1, 0, 0, 1)) by (cbn; lra).
  assert (HS : 1 * conic_S (1, 0, 1, 0, 0, 1) < 0) by (cbn; lra).
  split; [exact HT |]. split; [exact HS |].
  exact (gparams_from_conic_imaginary 1 0 1 0 0 1 HT HS).
Defined.

(** ** Conic -> geometric parameters -> conic *)

(** The angle of a nonzero vector (vx, vy): its double-angle products. *)
Lemma atan2_squares (vx vy : R) :
  let t := atan2 vy vx in
  let n := vx ^ 2 + vy ^ 2 in
  n * sin t ^ 2 = vy ^ 2 /\ n * cos t ^ 2 = vx ^ 2 /\
  n * (sin t * cos t) = vx * vy.
Proof.
  intros t n.
  pose proof (atan2_parallel vy vx) as Hpar. fold t in Hpar.
  pose proof (sin_cos_sq t) as Hsc.
  set (s := sin t) in *. set (c := cos t) in *. unfold n.
  repeat split.
  - replace ((vx ^ 2 + vy ^ 2) * s ^ 2)
      with ((vx * s) * (vx * s) + vy ^ 2 * s ^ 2) by ring.
    rewrite Hpar.
    replace (vy * c * (vy * c) + vy ^ 2 * s ^ 2)
      with (vy ^ 2 * (s ^ 2 + c ^ 2)) by ring.
    rewrite Hsc. ring.
  - replace ((vx ^ 2 + vy ^ 2) * c ^ 2)
      with (vx ^ 2 * c ^ 2 + (vy * c) * (vy * c)) by ring.
    rewrite <- Hpar.
    replace (vx ^ 2 * c ^ 2 + vx * s * (vx * s))
      with (vx ^ 2 * (s ^ 2 + c ^ 2)) by ring.
    rewrite Hsc. ring.
  - replace ((vx ^ 2 + vy ^ 2) * (s * c))
      with (vx * (vx * s) * c + vy * (vy * c) * s) by ring.
    rewrite Hpar.
    replace (vx * (vy * c) * c + vy * (vy * c) * s)
      with (vx * vy * c ^ 2 + vy * (vx * s) * s + vy * (vy * c - vx * s) * s)
      by ring.
    rewrite Hpar.
    replace (vx * vy * c ^ 2 + vy * (vy * c) * s + vy * (vy * c - vy * c) * s)
      with (vx * vy * c ^ 2 + vy * (vy * c) * s) by ring.
    rewrite <- Hpar.
    replace (vx * vy * c ^ 2 + vy * (vx * s) * s)
      with (vx * vy * (s ^ 2 + c ^ 2)) by ring.
    rewrite Hsc. ring.
Qed.

(** The eigen-decomposition behind [gparams_from_conic]: with q the
    discriminant of [eigh_2x2] and t the returned angle,
    q cos 2t = C - A and q sin 2t = -B. *)
Lemma conic_angle_double (A B C : R) :
  let q := sqrt ((C - A) ^ 2 + 4 * (0.5 * B) ^ 2) in
  let t := atan2 (- (2 * (0.5 * B))) (C - A + q) in
  B <> 0 \/ A < C ->
  q * (cos t ^ 2 - sin t ^ 2) = C - A /\ 2 * q * (sin t * cos t) = - B.
Proof.
  intros q t Hnd.
  assert (Hq0 : 0 <= q) by apply sqrt_pos.
  assert (Hqq : q * q = (C - A) ^ 2 + B ^ 2).
  { unfold q. rewrite sqrt_sqrt by apply eigh_disc_nonneg.
    unfold_decimals. field. }
  assert (Hy : - (2 * (0.5 * B)) = - B) by (unfold_decimals; field).
  destruct (atan2_squares (C - A + q) (- (2 * (0.5 * B)))) as (Hs2 & Hc2 & Hsc).
  fold t in Hs2, Hc2, Hsc. rewrite Hy in Hs2, Hc2, Hsc.
  set (s := sin t) in *. set (c := cos t) in *.
  set (vx := C - A + q) in *.
  assert (Hvx : 0 < vx).
  { unfold vx. destruct Hnd as [HB | HAC].
    - assert (0 < B ^ 2) by (simpl; nra). nra.
    - nra. }
  assert (Hn : vx ^ 2 + (- B) ^ 2 = 2 * q * vx) by (unfold vx; nra).
  rewrite Hn in Hs2, Hc2, Hsc.
  split.
  - apply (Rmult_eq_reg_l (2 * vx)); [| lra].
    replace (2 * vx * (q * (c ^ 2 - s ^ 2)))
      with (2 * q * vx * c ^ 2 - 2 * q * vx * s ^ 2) by ring.
    rewrite Hs2, Hc2. unfold vx. nra.
  - apply (Rmult_eq_reg_l vx); [| lra].
    replace (vx * (2 * q * (s * c))) with (2 * q * vx * (s * c)) by ring.
    rewrite Hsc. ring.
Qed.

(** X19. In exact real arithmetic: on the conic of a real ellipse with
    positive scale (T > 0, S > 0, A > 0) that is not axis-aligned with its
    major axis vertical (B <> 0 or A < C), [conic_from_gparams] applied to the
    tuple that [gparams_from_conic] returns gives the conic back, divided by
    the scale k of [conic_scale]. *)
Theorem conic_from_gparams_from_conic (A B C D E F : R) :
  0 < conic_T (A, B, C, D, E, F) -> 0 < conic_S (A, B, C, D, E, F) ->
  0 < A -> B <> 0 \/ A < C ->
  exists x0 y0 a b theta k : R,
    gparams_from_conic (A, B, C, D, E, F) =
    Some (Fin x0, Fin y0, Fin a, Fin b, Fin theta) /\
    fst (conic_scale (A, B, C, D, E, F)) = Fin k /\
    conic_from_gparams (x0, y0, a, b, theta) = conic_div (A, B, C, D, E, F) k.
Proof.
  intros HT HS HA Hnd.
  assert (HSnz : conic_S (A, B, C, D, E, F) <> 0) by lra.
  rewrite (gparams_from_conic_ellipse A B C D E F HT HSnz).
  rewrite (conic_scale_ellipse _ HT HSnz). cbn [fst].
  destruct (ellipse_eigen_sign A B C) as (Hq0 & Hqq & Hpos & _);
    [exact HT |].
  specialize (Hpos HA).
  destruct (conic_angle_double A B C Hnd) as [Hcos2 Hsin2].
  assert (HTnz : 4 * A * C - B ^ 2 <> 0).
  { cbn in HT. replace (4 * A * C - B ^ 2) with (4 * A * C - B * B) by ring. lra. }
  assert (HTeq : conic_T (A, B, C, D, E, F) = 4 * A * C - B ^ 2)
    by (cbn; ring).
  assert (HSeq : conic_S (A, B, C, D, E, F) =
                 A * E ^ 2 + B ^ 2 * F + C * D ^ 2 - B * D * E - 4 * A * C * F)
    by reflexivity.
  set (T := conic_T (A, B, C, D, E, F)) in *.
  set (S := conic_S (A, B, C, D, E, F)) in *.
  set (q := sqrt ((C - A) ^ 2 + 4 * (0.5 * B) ^ 2)) in *.
  set (t := atan2 (- (2 * (0.5 * B))) (C - A + q)) in *.
  assert (Hk : 0 < 0.25 * T ^ 2 / S).
  { unfold Rdiv. apply Rmult_lt_0_compat.
    - assert (0 < T ^ 2) by (apply pow_lt; exact HT). unfold_decimals. lra.
    - apply Rinv_0_lt_compat. exact HS. }
  set (k := 0.25 * T ^ 2 / S) in *.
  assert (HW0 : 0 < 0.5 * (C + A - q) / k).
  { unfold Rdiv. apply Rmult_lt_0_compat; [unfold_decimals; lra |].
    apply Rinv_0_lt_compat. exact Hk. }
  assert (HW1 : 0 < 0.5 * (C + A + q) / k).
  { unfold Rdiv. apply Rmult_lt_0_compat; [unfold_decimals; lra |].
    apply Rinv_0_lt_compat. exact Hk. }
  rewrite !xsqrt_fin by lra.
  do 6 eexists. split; [reflexivity |]. split; [reflexivity |].
  unfold conic_from_gparams, conic_div. fold t.
  rewrite !pow2_sqrt by lra.
  pose proof (sin_cos_sq t) as Hsc1.
  set (s := sin t) in *. set (c := cos t) in *.
  assert (HA' : 0.5 * (C + A + q) / k * s ^ 2 + 0.5 * (C + A - q) / k * c ^ 2 =
                A / k).
  { replace (0.5 * (C + A + q) / k * s ^ 2 + 0.5 * (C + A - q) / k * c ^ 2)
      with ((0.5 * (C + A) * (s ^ 2 + c ^ 2) - 0.5 * (q * (c ^ 2 - s ^ 2))) / k)
      by (field; lra).
    rewrite Hsc1, Hcos2. unfold_decimals. field. lra. }
  assert (HC' : 0.5 * (C + A + q) / k * c ^ 2 + 0.5 * (C + A - q) / k * s ^ 2 =
                C / k).
  { replace (0.5 * (C + A + q) / k * c ^ 2 + 0.5 * (C + A - q) / k * s ^ 2)
      with ((0.5 * (C + A) * (s ^ 2 + c ^ 2) + 0.5 * (q * (c ^ 2 - s ^ 2))) / k)
      by (field; lra).
    rewrite Hsc1, Hcos2. unfold_decimals. field. lra. }
  assert (HB' : 2 * (0.5 * (C + A - q) / k - 0.5 * (C + A + q) / k) * s * c =
                B / k).
  { replace (2 * (0.5 * (C + A - q) / k - 0.5 * (C + A + q) / k) * s * c)
      with (- (2 * q * (s * c)) / k) by (unfold_decimals; field; lra).
    rewrite Hsin2. field. lra. }
  rewrite HA', HB', HC'.
  assert (Hab2 : 0.5 * (C + A + q) / k * (0.5 * (C + A - q) / k) =
                 0.25 * T / (k * k)).
  { rewrite HTeq.
    replace (4 * A * C - B ^ 2) with ((C + A) ^ 2 - q * q) by (rewrite Hqq; ring).
    unfold_decimals. field. lra. }
  rewrite Hab2.
  clear HA' HB' HC' Hab2 HW0 HW1 Hcos2 Hsin2 Hsc1 Hpos Hqq Hq0.
  tuple_eq; try reflexivity.
  - field; repeat split; lra.
  - field; repeat split; lra.
  - clear Hk. unfold k, T, S, conic_T, conic_S in *. clear k.
    unfold_decimals. field.
    repeat split; try assumption; lra.
Qed.

Lemma conic_from_gparams_from_conic_example :
  0 < conic_T (2, 1, 2, 0, 0, -1) /\ 0 < conic_S (2, 1, 2, 0, 0, -1) /\
  0 < 2 /\ (1 <> 0 \/ 2 < 2) /\
  exists x0 y0 a b theta k : R,
    gparams_from_conic (2, 1, 2, 0, 0, -1) =
    Some (Fin x0, Fin y0, Fin a, Fin b, Fin theta) /\
    fst (conic_scale (2, 1, 2, 0, 0, -1)) = Fin k /\
    conic_from_gparams (x0, y0, a, b, theta) = conic_div (2, 1, 2, 0, 0, -1) k.
Proof.
  assert (HT : 0 < conic_T (2, 1, 2, 0, 0, -1)) by (cbn; lra).
  assert (HS : 0 < conic_S (2, 1, 2, 0, 0, -1)) by (cbn; lra).
  assert (HA : 0 < 2) by lra.
  assert (HB : 1 <> 0 \/ 2 < 2) by (left; lra).
  split; [exact HT |]. split; [exact HS |]. split; [exact HA |].
  split; [exact HB |].
  exact (conic_from_gparams_from_conic 2 1 2 0 0 (-1) HT HS HA HB).
Defined.

(** X20. In exact real arithmetic: on the conic of an axis-aligned ellipse
    whose major axis is vertical (B = 0, 0 < C < A, T > 0, S > 0),
    [gparams_from_conic] returns the angle 0 instead of PI/2: the conic that
    [conic_from_gparams] builds from the returned tuple has the coefficients
    of x^2 and y^2 exchanged, C/k and A/k. *)
Theorem gparams_from_conic_vertical_axis (A C D E F : R) :
  0 < conic_T (A, 0, C, D, E, F) -> 0 < conic_S (A, 0, C, D, E, F) ->
  0 < C -> C < A ->
  exists x0 y0 a b k D' E' F' : R,
    gparams_from_conic (A, 0, C, D, E, F) =
    Some (Fin x0, Fin y0, Fin a, Fin b, Fin 0) /\
    fst (conic_scale (A, 0, C, D, E, F)) = Fin k /\
    conic_from_gparams (x0, y0, a, b, 0) = (C / k, 0, A / k, D', E', F') /\
    C / k <> A / k.
Proof.
  intros HT HS HC HCA.
  assert (HSnz : conic_S (A, 0, C, D, E, F) <> 0) by lra.
  rewrite (gparams_from_conic_ellipse A 0 C D E F HT HSnz).
  rewrite (conic_scale_ellipse _ HT HSnz). cbn [fst].
  assert (Hq : sqrt ((C - A) ^ 2 + 4 * (0.5 * 0) ^ 2) = A - C).
  { replace ((C - A) ^ 2 + 4 * (0.5 * 0) ^ 2) with ((A - C) ^ 2) by ring.
    apply sqrt_pow2. lra. }
  rewrite Hq.
  set (T := conic_T (A, 0, C, D, E, F)) in *.
  set (S := conic_S (A, 0, C, D, E, F)) in *.
  assert (Hk : 0 < 0.25 * T ^ 2 / S).
  { unfold Rdiv. apply Rmult_lt_0_compat.
    - assert (0 < T ^ 2) by (apply pow_lt; exact HT). unfold_decimals. lra.
    - apply Rinv_0_lt_compat. exact HS. }
  set (k := 0.25 * T ^ 2 / S) in *.
  replace (0.5 * (C + A + (A - C)) / k) with (A / k)
    by (unfold_decimals; field; lra).
  replace (0.5 * (C + A - (A - C)) / k) with (C / k)
    by (unfold_decimals; field; lra).
  replace (- (2 * (0.5 * 0))) with 0 by (unfold_decimals; field).
  replace (C - A + (A - C)) with 0 by ring.
  rewrite atan2_origin.
  assert (HAk : 0 < A / k) by (apply Rdiv_lt_0_compat; lra).
  assert (HCk : 0 < C / k) by (apply Rdiv_lt_0_compat; lra).
  rewrite !xsqrt_fin by lra.
  do 8 eexists. split; [reflexivity |]. split; [reflexivity |].
  unfold conic_from_gparams. rewrite sin_0, cos_0, !pow2_sqrt by lra.
  split.
  - tuple_eq; try reflexivity; ring.
  - intros Heq. apply (Rmult_eq_compat_r k) in Heq.
    unfold Rdiv in Heq. rewrite !Rmult_assoc, Rinv_l in Heq by lra. lra.
Qed.

(** The ellipse 4 x^2 + y^2 = 4, whose major axis is vertical. *)
Lemma gparams_from_conic_vertical_axis_example :
  0 < conic_T (4, 0, 1, 0, 0, -4) /\ 0 < conic_S (4, 0, 1, 0, 0, -4) /\
  0 < 1 /\ 1 < 4 /\
  exists x0 y0 a b k D' E' F' : R,
    gparams_from_conic (4, 0, 1, 0, 0, -4) =
    Some (Fin x0, Fin y0, Fin a, Fin b, Fin 0) /\
    fst (conic_scale (4, 0, 1, 0, 0, -4)) = Fin k /\
    conic_from_gparams (x0, y0, a, b, 0) = (1 / k, 0, 4 / k, D', E', F') /\
    1 / k <> 4 / k.
Proof.
  assert (HT : 0 < conic_T (4, 0, 1, 0, 0, -4)) by (cbn; lra).
  assert (HS : 0 < conic_S (4, 0, 1, 0, 0, -4)) by (cbn; lra).
  assert (HC : 0 < 1) by lra.
  assert (HCA : 1 < 4) by lra.
  split; [exact HT |]. split; [exact HS |]. split; [exact HC |].
  split; [exact HCA |].
  exact (gparams_from_conic_vertical_axis 4 1 0 0 (-4) HT HS HC HCA).
Defined.

(** ** Multiples of a conic through a homography *)

(** X21. In exact real arithmetic: [conic_transform] is linear in the conic:
    for every matrix H, the transform of k * c is k times the transform of c,
    and it fails on k * c exactly when it fails on c. *)
Theorem conic_transform_mul (k : R) (c : conic) (H : mat3) :
  conic_transform (conic_mul k c) H =
  match conic_transform c H with
  | Some c' => Some (conic_mul k c')
  | None => None
  end.
Proof.
  destruct c as [[[[[A B] C] D] E] F].
  unfold conic_transform. cbn [conic_mul].
  destruct (inv3 H) as [G |]; [| reflexivity].
  destruct_mat G. cbn. tuple_eq; unfold_decimals; field.
Qed.

(** ** Where binary64 leaves exact arithmetic *)

Module Float64Facts.

Import PrimFloat.
Local Open Scope float_scope.

(** Evaluates the value of a binary64 literal. *)
Ltac float_value :=
  unfold Float64.to_xreal;
  repeat match goal with
         | |- context [FloatOps.Prim2SF ?x] =>
             let v := eval vm_compute in (FloatOps.Prim2SF x) in
             change (FloatOps.Prim2SF x) with v
         end;
  cbv beta iota;
  repeat match goal with
         | |- context [Z.leb ?a ?b] =>
             let v := eval vm_compute in (Z.leb a b) in
             change (Z.leb a b) with v
         end;
  cbv beta iota;
  repeat match goal with
         | |- context [IZR ?z] =>
             lazymatch z with
             | Z.mul _ _ =>
                 let v := eval vm_compute in z in change z with v
             | Z.pow _ _ =>
                 let v := eval vm_compute in z in change z with v
             end
         end.

Lemma far_circle_value :
  Float64.conic_to_xreal Float64.far_circle =
  fin6 (1, 0, 1, -200000001, 0, 10000000100000000)%R.
Proof.
  unfold Float64.conic_to_xreal, Float64.far_circle, fin6.
  float_value. tuple_eq; lra.
Qed.

Lemma large_hyperbola_value :
  Float64.conic_to_xreal Float64.large_hyperbola =
  fin6 (IZR (2 ^ 600), IZR (2 ^ 602), IZR (2 ^ 600), 0, 0, -1)%R.
Proof.
  unfold Float64.conic_to_xreal, Float64.large_hyperbola, fin6.
  float_value. tuple_eq; try reflexivity; lra.
Qed.

(** C7 as stated fails in binary64.  The coefficients of [far_circle] are
    exact, T = 4 > 0 and S = 1 <> 0, but the program computes S = 0.0, so
    [conic_scale] returns (inf, inf) and the conversion returns [None] on an
    ellipse; on [large_hyperbola], where T < 0, the program computes
    T = NaN and S = NaN, no guard fires and an array of NaN is returned. *)
Lemma conic_sentinel_float64 :
  (Float64.conic_to_xreal Float64.far_circle =
   fin6 (1, 0, 1, -200000001, 0, 10000000100000000)%R /\
   (0 < conic_T (1, 0, 1, -200000001, 0, 10000000100000000))%R /\
   conic_S (1, 0, 1, -200000001, 0, 10000000100000000)%R <> 0%R /\
   Float64.conic_scale Float64.far_circle = (infinity, infinity) /\
   Float64.moments_from_conic Float64.far_circle = None) /\
  (Float64.conic_to_xreal Float64.large_hyperbola =
   fin6 (IZR (2 ^ 600), IZR (2 ^ 602), IZR (2 ^ 600), 0, 0, -1)%R /\
   (conic_T (IZR (2 ^ 600), IZR (2 ^ 602), IZR (2 ^ 600), 0, 0, -1) < 0)%R /\
   Float64.conic_scale Float64.large_hyperbola = (nan, nan) /\
   Float64.moments_from_conic Float64.large_hyperbola =
   Some (nan, nan, nan, nan, nan, nan)).
Proof.
  split.
  - split; [exact far_circle_value |].
    split; [cbn; lra |]. split; [cbn; lra |].
    split; vm_compute; reflexivity.
  - split; [exact large_hyperbola_value |].
    split.
    + unfold conic_T.
      replace (2 ^ 602)%Z with (4 * 2 ^ 600)%Z by (vm_compute; reflexivity).
      rewrite mult_IZR.
      assert (H : (0 < IZR (2 ^ 600))%R).
      { apply IZR_lt. vm_compute. reflexivity. }
      nra.
    + split; vm_compute; reflexivity.
Qed.

(** The points of [far_quadrilateral] are exact. *)
Lemma far_quadrilateral_value :
  map (fun p => (Float64.to_xreal (fst p), Float64.to_xreal (snd p)))
      Float64.far_quadrilateral =
  [(Fin 67108864.5, Fin 67108864.75); (Fin 67108865.25, Fin 67108864.5);
   (Fin 67108866, Fin 67108865.75); (Fin 67108864.75, Fin 67108865.5)]%R.
Proof.
  unfold Float64.far_quadrilateral. cbn [map fst snd].
  float_value.
  repeat match goal with
         | |- _ :: _ = _ :: _ => apply f_equal2
         | |- (_, _) = (_, _) => apply f_equal2
         | |- Fin _ = Fin _ => apply f_equal
         end; try reflexivity; lra.
Qed.

Lemma float_neq (x y : float) : (x =? y) = false -> (y =? y) = true -> x <> y.
Proof.
  intros Hxy Hyy Heq. rewrite Heq, Hyy in Hxy. discriminate Hxy.
Qed.

(** C9 as stated fails in binary64.  On [far_quadrilateral], whose points
    are exact and whose accumulated raw area a00 is 2 (and -2 reversed), the
    program returns the central moments (33554431, 55924052, 22369620), and
    on the reversed sequence (22369620, 44739241, 44739241). *)
Lemma moments_from_contour_rev_float64 :
  option_map Float64.a00 (Float64.contour_sums Float64.far_quadrilateral) =
  Some 2 /\
  option_map Float64.a00
             (Float64.contour_sums (rev Float64.far_quadrilateral)) =
  Some (-2) /\
  Float64.moments_from_contour Float64.far_quadrilateral =
  Some (1, 67108865, 67108865, 33554431, 55924052, 22369620) /\
  Float64.moments_from_contour (rev Float64.far_quadrilateral) =
  Some (1, 67108865, 67108865, 22369620, 44739241, 44739241) /\
  Float64.moments_from_contour (rev Float64.far_quadrilateral) <>
  Float64.moments_from_contour Float64.far_quadrilateral.
Proof.
  assert (Hf : Float64.moments_from_contour Float64.far_quadrilateral =
               Some (1, 67108865, 67108865, 33554431, 55924052, 22369620))
    by (vm_compute; reflexivity).
  assert (Hr : Float64.moments_from_contour (rev Float64.far_quadrilateral) =
               Some (1, 67108865, 67108865, 22369620, 44739241, 44739241))
    by (vm_compute; reflexivity).
  split; [vm_compute; reflexivity |].
  split; [vm_compute; reflexivity |].
  split; [exact Hf |]. split; [exact Hr |].
  intros H. apply (f_equal Float64.result_mu20) in H.
  rewrite Hf, Hr in H. cbn [Float64.result_mu20] in H.
  revert H. apply float_neq; vm_compute; reflexivity.
Qed.

(** In binary64 the result also depends on the start vertex: with the first
    point of [far_quadrilateral] moved to the end, m10 is 67108865.1666...
    and the central moments are (11184811, 33554431, 39146836). *)
Lemma moments_from_contour_rotate_float64 :
  Float64.moments_from_contour
    (tl Float64.far_quadrilateral ++ [hd (0, 0) Float64.far_quadrilateral]) =
  Some (1, 0x1.0000004aaaaaap+26, 67108865, 11184811, 33554431, 39146836) /\
  Float64.moments_from_contour Float64.far_quadrilateral =
  Some (1, 67108865, 67108865, 33554431, 55924052, 22369620).
Proof.
  split; vm_compute; reflexivity.
Qed.

(** In binary64 the radicand of [eigh_2x2], expanded as the source writes
    it, can round to a negative number: on the diagonal matrix with entries
    3 + 2^-49 and 3 + 2^-50 both eigenvalues are NaN. *)
Lemma eigh_2x2_float64_nan :
  fst (Float64.eigh_2x2 0x1.8000000000004p+1 0 0x1.8000000000002p+1) =
  (nan, nan).
Proof. vm_compute. reflexivity. Qed.

(** In binary64 a positive multiple of a conic need not give the same
    moments: on the conic (1, 0, 1, -200000001, 0, 10000000099999984), a
    circle of radius 2, and on 3 times it, the areas m00 differ. *)
Lemma moments_from_conic_mul_float64 :
  Float64.moments_from_conic
    (1, 0, 1, -200000001, 0, 10000000099999984) <>
  Float64.moments_from_conic
    (3, 0, 3, -600000003, 0, 30000000299999952).
Proof.
  intros H. apply (f_equal Float64.result_m00) in H.
  vm_compute in H.
  revert H. apply float_neq; vm_compute; reflexivity.
Qed.

End Float64Facts.
